(** * The S-S cryptosystem: number theory, key generation and file transforms

    A shallow embedding of [numtheory.c], [randstate.c] and [ss.c].

    - [mpz_t] values are unbounded integers, modelled as [Z];
    - [uint64_t] and [uint16_t] values are [Z] with the wrap-around of every
      arithmetic operation written out ([wrap64], [wrap16]);
    - C loops are written as a loop body iterated by [loop], which takes a
      bound on the number of passes ([Gas] when the bound is hit);
    - operations that have no defined result in C or that make GMP abort
      (division by zero, writing outside an allocated buffer) give [Fault];
    - the global [gmp_randstate_t state] and the hidden state of [rand()] are
      two tapes of raw values; every function that draws from them takes the
      [world] and returns the new one. *)

From Stdlib Require Import ZArith Znumtheory Zpow_facts Lia List Bool.
From Stdlib Require Import Strings.Byte.
From Stdlib Require Import Zmod.ZmodInv.
Import ListNotations.

Local Open Scope Z_scope.

(** ** Outcomes of a run *)

Inductive result (A : Type) : Type :=
| Ok (a : A)
| Fault
| Gas.

Arguments Ok {A} a.
Arguments Fault {A}.
Arguments Gas {A}.

Definition bind {A B : Type} (r : result A) (k : A -> result B) : result B :=
  match r with
  | Ok a => k a
  | Fault => Fault
  | Gas => Gas
  end.

Declare Scope result_scope.
Delimit Scope result_scope with result.
Notation "x <- c ;; k" := (bind c (fun x => k))
  (at level 61, c at next level, right associativity) : result_scope.
Notation "' p <- c ;; k" := (bind c (fun x => let p := x in k))
  (at level 61, p pattern, c at next level, right associativity) : result_scope.
Local Open Scope result_scope.

(** One pass through a loop body either goes round again with a new state
    ([inl]) or leaves the loop with a value ([inr]). *)
Fixpoint loop {S R : Type} (fuel : nat) (body : S -> result (S + R)) (s : S)
  : result R :=
  match body s with
  | Ok (inl s') =>
      match fuel with
      | O => Gas
      | Datatypes.S fuel' => loop fuel' body s'
      end
  | Ok (inr r) => Ok r
  | Fault => Fault
  | Gas => Gas
  end.

(** The state reached after exactly [k] passes, when none of them leaves. *)
Fixpoint passes {S R : Type} (k : nat) (body : S -> result (S + R)) (s : S)
  : result (S + R) :=
  match k with
  | O => Ok (inl s)
  | Datatypes.S k' =>
      match body s with
      | Ok (inl s') => passes k' body s'
      | other => other
      end
  end.

(** ** Machine integers *)

Definition wrap64 (z : Z) : Z := z mod 2 ^ 64.
Definition wrap16 (z : Z) : Z := z mod 2 ^ 16.

(** ** Random sources

    [state] is the global [gmp_randstate_t] of [numtheory.c], seeded by
    [randstate_init]; [libc] is the hidden state behind [rand()].  A tape
    holds the raw values the generator will give, in order; a draw reads the
    cell under the head and moves the head. *)

Record tape : Type := mkTape { cells : nat -> Z; head : nat }.

Record world : Type := mkWorld { state : tape; libc : tape }.

Definition draw (t : tape) : Z * tape :=
  (cells t (head t), mkTape (cells t) (S (head t))).

Definition M (A : Type) : Type := world -> result (A * world).

Definition ret {A : Type} (a : A) : M A := fun w => Ok (a, w).

Definition lift {A : Type} (r : result A) : M A :=
  fun w => match r with Ok a => Ok (a, w) | Fault => Fault | Gas => Gas end.

Definition bindM {A B : Type} (m : M A) (k : A -> M B) : M B :=
  fun w => match m w with
           | Ok (a, w') => k a w'
           | Fault => Fault
           | Gas => Gas
           end.

Notation "x <~ c ;; k" := (bindM c (fun x => k))
  (at level 61, c at next level, right associativity) : result_scope.
Notation "' p <~ c ;; k" := (bindM c (fun x => let p := x in k))
  (at level 61, p pattern, c at next level, right associativity) : result_scope.

(** [loop] for a body that draws random values. *)
Fixpoint loopM {S R : Type} (fuel : nat) (body : S -> M (S + R)) (s : S) : M R :=
  fun w =>
    match body s w with
    | Ok (inl s', w') =>
        match fuel with
        | O => Gas
        | Datatypes.S fuel' => loopM fuel' body s' w'
        end
    | Ok (inr r, w') => Ok (r, w')
    | Fault => Fault
    | Gas => Gas
    end.

(** [RAND_MAX] of the C library. *)
Definition RAND_MAX : Z := 2147483647.

(** [rand ()]: an [int] between 0 and [RAND_MAX]. *)
Definition rand : M Z :=
  fun w => let '(raw, t) := draw (libc w) in
           Ok (raw mod (RAND_MAX + 1), mkWorld (state w) t).

(** ** The GMP functions the program calls *)

Module Gmp.

(** [mpz_mod]: the sign of the divisor is ignored and the result is
    non-negative; a zero divisor is a division by zero. *)
Definition mpz_mod (n d : Z) : result Z :=
  if d =? 0 then Fault else Ok (n mod Z.abs d).

(** [mpz_fdiv_q]: quotient rounded towards minus infinity. *)
Definition mpz_fdiv_q (n d : Z) : result Z :=
  if d =? 0 then Fault else Ok (n / d).

(** [mpz_divexact]. *)
Definition mpz_divexact (n d : Z) : result Z :=
  if d =? 0 then Fault else Ok (n / d).

(** [mpz_sizeinbase (op, 2)]: the number of bits of [|op|], and 1 for zero. *)
Definition mpz_sizeinbase2 (op : Z) : Z :=
  if op =? 0 then 1 else Z.log2 (Z.abs op) + 1.

(** [mpz_sqrt]: the truncated square root; GMP aborts on a negative operand. *)
Definition mpz_sqrt (op : Z) : result Z :=
  if op <? 0 then Fault else Ok (Z.sqrt op).

(** [mpz_powm]: [base ^ exp] modulo [|modulus|].  A zero modulus is a division by
    zero; a negative exponent uses the inverse of [base], and is a division
    by zero when there is none. *)
Definition mpz_powm (base exp modulus : Z) : result Z :=
  if modulus =? 0 then Fault
  else if exp <? 0 then
    if Z.gcd base modulus =? 1
    then Ok (Zpow_mod (Z.invmod base (Z.abs modulus)) (- exp) (Z.abs modulus))
    else Fault
  else Ok (Zpow_mod base exp (Z.abs modulus)).

(** [mpz_urandomm (rop, state, n)]: uniform in [0, |n| - 1]; [n = 0] is a
    division by zero. *)
Definition mpz_urandomm (n : Z) : M Z :=
  fun w =>
    if n =? 0 then Fault
    else let '(raw, t) := draw (state w) in
         Ok (raw mod Z.abs n, mkWorld t (libc w)).

(** [mpz_urandomb (rop, state, n)]: uniform in [0, 2^n - 1]. *)
Definition mpz_urandomb (n : Z) : M Z :=
  fun w => let '(raw, t) := draw (state w) in
           Ok (raw mod 2 ^ n, mkWorld t (libc w)).

Definition byte_to_Z (b : byte) : Z := Z.of_N (Byte.to_N b).

Definition byte_of_Z (z : Z) : byte :=
  match Byte.of_N (Z.to_N (z mod 256)) with
  | Some b => b
  | None => x00
  end.

(** [mpz_import (rop, count, 1, 1, 1, 0, data)]: [count] bytes, most
    significant first. *)
Definition mpz_import (data : list byte) : Z :=
  fold_left (fun acc b => acc * 256 + byte_to_Z b) data 0.

(** The [count] low bytes of [op], most significant first. *)
Fixpoint be_bytes (count : nat) (op : Z) : list byte :=
  match count with
  | O => []
  | S k => byte_of_Z (op / 256 ^ Z.of_nat k) :: be_bytes k op
  end.

(** [mpz_export (buf, &count, 1, 1, 1, 0, op)]: the bytes of [|op|], most
    significant first, as few as hold it; none at all for zero. *)
Definition mpz_export (op : Z) : list byte :=
  let a := Z.abs op in
  let count := if a =? 0 then 0 else Z.log2 a / 8 + 1 in
  be_bytes (Z.to_nat count) a.

End Gmp.

Import Gmp.

(** Number of passes that is enough for a loop that halves [z] down to zero. *)
Definition bit_fuel (z : Z) : nat := S (Z.to_nat (Z.log2 (Z.abs z))).

(** ** numtheory.c *)

Module NumTheory.

(** [gcd]: state [(current_num1, current_num2)]. *)
Definition gcd_body (st : Z * Z) : result (Z * Z + Z) :=
  let '(current_num1, current_num2) := st in
  if negb (current_num2 =? 0) then
    let temp := current_num2 in
    current_num2' <- mpz_mod current_num1 current_num2 ;;
    Ok (inl (temp, current_num2'))
  else Ok (inr current_num1).

Definition gcd (num1 num2 : Z) : result Z :=
  loop (bit_fuel (num1 * num2) + 2) gcd_body (num1, num2).

(** [mod_inverse]: state
    [(cur_modulus, cur_value, coef_modulus, coef_value)]. *)
Definition mod_inverse_body (st : Z * Z * Z * Z)
  : result (Z * Z * Z * Z + Z * Z) :=
  let '(cur_modulus, cur_value, coef_modulus, coef_value) := st in
  if negb (cur_value =? 0) then
    q <- mpz_fdiv_q cur_modulus cur_value ;;
    let tmp := cur_modulus in
    let cur_modulus' := cur_value in
    let mul_result := q * cur_value in
    let sub_result := tmp - mul_result in
    let cur_value' := sub_result in
    let tmp := coef_modulus in
    let coef_modulus' := coef_value in
    let mul_result := q * coef_value in
    let sub_result := tmp - mul_result in
    let coef_value' := sub_result in
    Ok (inl (cur_modulus', cur_value', coef_modulus', coef_value'))
  else Ok (inr (cur_modulus, coef_modulus)).

Definition mod_inverse (value modulus : Z) : result Z :=
  '(cur_modulus, coef_modulus) <-
     loop (bit_fuel (value * modulus) + 2) mod_inverse_body
          (modulus, value, 0, 1) ;;
  if cur_modulus >? 1 then Ok 0
  else if coef_modulus <? 0 then Ok (coef_modulus + modulus)
  else Ok coef_modulus.

(** [pow_mod]: state [(current_result, current_base, current_exponent)]. *)
Definition pow_mod_body (modulus : Z) (st : Z * Z * Z)
  : result (Z * Z * Z + Z) :=
  let '(current_result, current_base, current_exponent) := st in
  if current_exponent >? 0 then
    let remainder := current_exponent mod 2 in
    current_result' <-
      (if negb (remainder =? 0) then
         mpz_mod (current_result * current_base) modulus
       else Ok current_result) ;;
    current_base' <- mpz_mod (current_base * current_base) modulus ;;
    Ok (inl (current_result', current_base', current_exponent / 2))
  else Ok (inr current_result).

Definition pow_mod (base exponent modulus : Z) : result Z :=
  loop (bit_fuel exponent) (pow_mod_body modulus) (1, base, exponent).

(** [is_prime], first loop: find [s] and [r] with
    [number - 1 = 2^s * r] and [r] odd.  State [s]. *)
Definition is_prime_factor_body (number_minus_one : Z) (s : Z)
  : result (Z + Z * Z) :=
  let r := Z.shiftr number_minus_one s in
  if Z.odd r then Ok (inr (s, r)) else Ok (inl (wrap64 (s + 1))).

(** [is_prime], inner loop: up to [s - 1] squarings.  State [(j, witness)];
    it leaves with [None] where the C code returns [false] from inside the
    loop, and with the last [witness] where the loop condition fails. *)
Definition is_prime_square_body (number number_minus_one s two : Z)
  (st : Z * Z) : result (Z * Z + option Z) :=
  let '(j, witness) := st in
  if (j <=? wrap64 (s - 1)) && negb (witness =? number_minus_one) then
    witness' <- pow_mod witness two number ;;
    if witness' =? 1 then Ok (inr None)
    else Ok (inl (wrap64 (j + 1), witness'))
  else Ok (inr (Some witness)).

(** One round of the test with a given [base]: [true] when the round passes
    ([continue] or the end of the loop body), [false] when the C code
    returns [false]. *)
Definition is_prime_round (number number_minus_one s r two base : Z)
  : result bool :=
  witness <- pow_mod base r number ;;
  if (witness =? 1) || (witness =? number_minus_one) then Ok true
  else
    after <- loop (Z.to_nat (wrap64 (s - 1)))
                  (is_prime_square_body number number_minus_one s two)
                  (1, witness) ;;
    match after with
    | None => Ok false
    | Some witness =>
        if negb (witness =? number_minus_one) then Ok false else Ok true
    end.

(** [is_prime], outer loop.  State [i]. *)
Definition is_prime_body (number number_minus_one s r max_random two
                          iterations : Z) (i : Z) : M (Z + bool) :=
  if i <? iterations then
    base <~ mpz_urandomm max_random ;;
    let base := base + 2 in
    passed <~ lift (is_prime_round number number_minus_one s r two base) ;;
    if passed then ret (inl (wrap64 (i + 1))) else ret (inr false)
  else ret (inr true).

Definition is_prime (number iterations : Z) : M bool :=
  if number =? 1 then ret false
  else if number =? 2 then ret true
  else if Z.even number then ret false
  else
    let s := 1 in
    let number_minus_one := number - 1 in
    '(s, r) <~ lift (loop (bit_fuel number_minus_one)
                          (is_prime_factor_body number_minus_one) s) ;;
    let max_random := number - 4 in
    let two := 2 in
    loopM (Z.to_nat iterations)
          (is_prime_body number number_minus_one s r max_random two iterations)
          0.

(** [make_prime].  State [prime].  The loop has no bound in C: [fuel] bounds
    the number of draws. *)
Definition make_prime_body (bit_size iterations lower_bound : Z) (prime : Z)
  : M (Z + Z) :=
  found <~ is_prime prime iterations ;;
  if negb found then
    prime' <~ mpz_urandomb bit_size ;;
    ret (inl (prime' + lower_bound))
  else ret (inr prime).

Definition make_prime (fuel : nat) (bit_size iterations : Z) : M Z :=
  let one := 1 in
  let lower_bound := one * 2 ^ wrap64 (bit_size - 1) in
  loopM fuel (make_prime_body bit_size iterations lower_bound) 0.

End NumTheory.

Import NumTheory.

(** ** ss.c *)

Module SS.

(** [ss_make_pub], the loop.  State [(prime_p, prime_q)].  The loop has no
    bound in C: [fuel] bounds its passes and the draws of each [make_prime]. *)
Definition ss_make_pub_body (fuel : nat)
  (total_bits iterations min_p_bits max_p_bits : Z) (st : Z * Z)
  : M (Z * Z + Z * Z) :=
  r <~ rand ;;
  let range := wrap64 (wrap64 (max_p_bits - min_p_bits) + 1) in
  if range =? 0 then lift Fault
  else
    let prime_p_bits := wrap64 (r mod range + min_p_bits) in
    prime_p <~ make_prime fuel prime_p_bits iterations ;;
    let squared_p := prime_p * prime_p in
    let squared_p_bits := mpz_sizeinbase2 squared_p in
    let prime_q_bits := wrap64 (total_bits - squared_p_bits) in
    prime_q <~ make_prime fuel prime_q_bits iterations ;;
    let p_minus1 := prime_p - 1 in
    let q_minus1 := prime_q - 1 in
    mod_check1 <~ lift (mpz_mod q_minus1 prime_p) ;;
    mod_check2 <~ lift (mpz_mod p_minus1 prime_q) ;;
    if negb (mod_check1 =? 0) && negb (mod_check2 =? 0)
    then ret (inr (prime_p, prime_q))
    else ret (inl (prime_p, prime_q)).

(** [ss_make_pub]: gives [(prime_p, prime_q, modulus_n)]. *)
Definition ss_make_pub (fuel : nat) (total_bits iterations : Z)
  : M (Z * Z * Z) :=
  let min_p_bits := total_bits / 5 in
  let max_p_bits := wrap64 (2 * total_bits) / 5 in
  '(prime_p, prime_q) <~
     loopM fuel
           (ss_make_pub_body fuel total_bits iterations min_p_bits max_p_bits)
           (0, 0) ;;
  let modulus_n := prime_p * prime_p in
  let modulus_n := modulus_n * prime_q in
  ret (prime_p, prime_q, modulus_n).

(** The local [n] of [ss_make_priv]: [modulus_pq * prime_p]. *)
Definition ss_make_priv_n (prime_p prime_q : Z) : Z :=
  let modulus_pq := prime_p * prime_q in
  modulus_pq * prime_p.

(** The local [lambda] of [ss_make_priv]. *)
Definition ss_make_priv_lambda (prime_p prime_q : Z) : result Z :=
  let p_minus1 := prime_p - 1 in
  let q_minus1 := prime_q - 1 in
  let lambda := p_minus1 * q_minus1 in
  gcd_value <- gcd p_minus1 q_minus1 ;;
  mpz_divexact lambda gcd_value.

(** [ss_make_priv]: gives [(private_key_d, modulus_pq)]. *)
Definition ss_make_priv (prime_p prime_q : Z) : result (Z * Z) :=
  let modulus_pq := prime_p * prime_q in
  let n := ss_make_priv_n prime_p prime_q in
  lambda <- ss_make_priv_lambda prime_p prime_q ;;
  private_key_d <- mod_inverse n lambda ;;
  Ok (private_key_d, modulus_pq).

Definition ss_encrypt (plaintext modulus_n : Z) : result Z :=
  mpz_powm plaintext modulus_n modulus_n.

Definition ss_decrypt (ciphertext private_key_d modulus_pq : Z) : result Z :=
  mpz_powm ciphertext private_key_d modulus_pq.

(** The block size loop, the same in [ss_encrypt_file] and
    [ss_decrypt_file].  State [(modulus, block_size)], with [block_size] a
    [uint16_t]. *)
Definition block_size_body (st : Z * Z) : result (Z * Z + Z) :=
  let '(modulus, block_size) := st in
  if negb (modulus =? 0) then Ok (inl (modulus / 2, wrap16 (block_size + 1)))
  else Ok (inr block_size).

Definition block_size_of (modulus : Z) : result Z :=
  block_size <- loop (bit_fuel modulus) block_size_body (modulus, 0) ;;
  let block_size := wrap16 (block_size - 1) in
  let block_size := block_size / 8 in
  Ok block_size.

(** The input of [ss_encrypt_file] is the bytes still to be read; its output
    is the integers printed so far, one per line.  [enc_blocks] records the
    values the local [plaintext] has taken. *)
Record enc_state : Type := mkEnc {
  enc_infile : list byte;
  enc_outfile : list Z;
  enc_blocks : list Z
}.

(** [fread (ptr, 1, nmemb, stream)]: the next [nmemb] bytes, or as many as
    are left. *)
Definition fread (nmemb : nat) (stream : list byte) : list byte * list byte :=
  (firstn nmemb stream, skipn nmemb stream).

Definition ss_encrypt_file_body (block_size modulus_n : Z) (st : enc_state)
  : result (enc_state + enc_state) :=
  (* plaintext_block = calloc (block_size, 1); plaintext_block[0] = 0xFF *)
  if block_size =? 0 then Fault
  else
    let nmemb := Z.to_nat (block_size - 1) in
    let '(data, infile) := fread nmemb (enc_infile st) in
    let bytes_read := length data in
    if (bytes_read =? 0)%nat then Ok (inr st)
    else
      let plaintext_block := xff :: data ++ repeat x00 (nmemb - bytes_read) in
      let plaintext := mpz_import plaintext_block in
      ciphertext <- ss_encrypt plaintext modulus_n ;;
      Ok (inl (mkEnc infile
                     (enc_outfile st ++ [ciphertext])
                     (enc_blocks st ++ [plaintext]))).

(** The block size of [ss_encrypt_file], from the square root of
    [modulus_n]. *)
Definition encrypt_block_size (modulus_n : Z) : result Z :=
  sqrt_modulus <- mpz_sqrt modulus_n ;;
  block_size_of sqrt_modulus.

(** The block size of [ss_decrypt_file], from a copy of [modulus_pq]. *)
Definition decrypt_block_size (modulus_pq : Z) : result Z :=
  let modulus_copy := modulus_pq in
  block_size_of modulus_copy.

Definition ss_encrypt_file_run (infile : list byte) (modulus_n : Z)
  : result enc_state :=
  block_size <- encrypt_block_size modulus_n ;;
  loop (length infile) (ss_encrypt_file_body block_size modulus_n)
       (mkEnc infile [] []).

(** [ss_encrypt_file]: what has been written to [outfile] at the end. *)
Definition ss_encrypt_file (infile : list byte) (modulus_n : Z)
  : result (list Z) :=
  st <- ss_encrypt_file_run infile modulus_n ;;
  Ok (enc_outfile st).

(** The input of [ss_decrypt_file], as [gmp_fscanf] sees it: a sequence of
    tokens separated by white space, each one either a hexadecimal integer
    or something [%Zx] does not accept. *)
Inductive token : Type :=
| Hex (value : Z)
| Junk.

(** [gmp_fscanf (infile, "%Zx\n", ciphertext)]: the return value, the new
    [ciphertext] and the rest of the input.  At the end of the input it
    returns -1; on a token that is no hexadecimal integer it returns 0,
    stores nothing and leaves the token in the input. *)
Definition gmp_fscanf_Zx (infile : list token) (ciphertext : Z)
  : Z * Z * list token :=
  match infile with
  | [] => (-1, ciphertext, [])
  | Hex value :: rest => (1, value, rest)
  | Junk :: _ => (0, ciphertext, infile)
  end.

Record dec_state : Type := mkDec {
  dec_infile : list token;
  dec_ciphertext : Z;
  dec_outfile : list byte
}.

Definition ss_decrypt_file_body (block_size private_key_d modulus_pq : Z)
  (st : dec_state) : result (dec_state + list byte) :=
  let '(scanned, ciphertext, infile) :=
    gmp_fscanf_Zx (dec_infile st) (dec_ciphertext st) in
  if scanned =? -1 then Ok (inr (dec_outfile st))
  else
    plaintext <- ss_decrypt ciphertext private_key_d modulus_pq ;;
    (* plaintext_block = calloc (block_size, 1); mpz_export fills it *)
    let exported := mpz_export plaintext in
    let decrypted_size := Z.of_nat (length exported) in
    if block_size <? decrypted_size then Fault
    (* fwrite (&plaintext_block[1], 1, decrypted_size - 1, outfile); the
       count is a size_t and wraps around when decrypted_size is 0 *)
    else if decrypted_size =? 0 then Fault
    else Ok (inl (mkDec infile ciphertext (dec_outfile st ++ tl exported))).

(** [ss_decrypt_file]: what has been written to [outfile] at the end.  The
    loop has no bound in C: [fuel] bounds its passes. *)
Definition ss_decrypt_file (fuel : nat) (infile : list token)
  (private_key_d modulus_pq : Z) : result (list byte) :=
  block_size <- decrypt_block_size modulus_pq ;;
  loop fuel (ss_decrypt_file_body block_size private_key_d modulus_pq)
       (mkDec infile 0 []).

End SS.

Import SS.

(** * Vocabulary of the statements *)

(** The world after one draw from the GMP generator. *)
Definition after_draw (w : world) : world :=
  mkWorld (snd (draw (state w))) (libc w).

Definition raw_draw (w : world) : Z := fst (draw (state w)).

(** Every base a single round can draw for [number] gives [expected]. *)
Definition all_bases (number s r : Z) (expected : bool) : bool :=
  forallb (fun x =>
             match is_prime_round number (number - 1) s r 2 (Z.of_nat x + 2) with
             | Ok passed => Bool.eqb passed expected
             | _ => false
             end)
          (seq 0 (Z.to_nat (Z.abs (number - 4)))).

Definition tape_of (l : list Z) : tape := mkTape (fun i => nth i l 0) 0.

(** A run of key generation for 24 bits with one test round. *)
Definition keygen24_world : world :=
  mkWorld (tape_of [3; 1; 1; 1]) (tape_of [0]).

Definition keygen24_end : world :=
  mkWorld (mkTape (cells (state keygen24_world)) 4)
          (mkTape (cells (libc keygen24_world)) 1).

Definition make_prime_world : world :=
  mkWorld (tape_of [3; 1; 1; 1]) (tape_of []).

Definition make_prime_end : world :=
  mkWorld (mkTape (cells (state make_prime_world)) 4) (libc make_prime_world).

(** The number of passes [pow_mod] still needs with [exponent] left. *)
Definition pow_mod_passes (exponent : Z) : nat :=
  if exponent >? 0 then S (Z.to_nat (Z.log2 exponent)) else O.

(** The state of [pow_mod] after some passes, for a positive exponent. *)
Definition pow_mod_inv (base exponent modulus : Z) (st : Z * Z * Z) : Prop :=
  let '(r, b, e) := st in
  0 <= e /\
  (r * b ^ e) mod Z.abs modulus = (base ^ exponent) mod Z.abs modulus /\
  (0 <= r < Z.abs modulus \/ r = 1 /\ 0 < e).

(** The number of passes Euclid's algorithm still needs from [(r0, r1)]. *)
Definition euclid_passes (r0 r1 : Z) : nat :=
  if r1 =? 0 then O else S (Z.to_nat (Z.log2 (r0 * r1))).

(** The state of [mod_inverse] after some passes, for [0 <= a <= n]. *)
Definition mod_inverse_inv (a n : Z) (st : Z * Z * Z * Z) : Prop :=
  let '(r0, r1, t0, t1) := st in
  0 <= r1 <= r0 /\ 0 < r0 /\
  Z.gcd r0 r1 = Z.gcd a n /\
  (n | t0 * a - r0) /\ (n | t1 * a - r1) /\
  ((t0 <= 0 <= t1 /\ t1 * r0 - t0 * r1 = n /\ - t0 * r0 <= n) \/
   (t1 <= 0 <= t0 /\ t0 * r1 - t1 * r0 = n /\ t0 * r0 <= n)).

Definition mod_inverse_post (a n : Z) (res : Z * Z) : Prop :=
  let '(g, t) := res in
  g = Z.gcd a n /\ (n | t * a - g) /\ Z.abs t * g <= n.

(** What the specification states of [mod_inverse a n]. *)
Definition mod_inverse_claim (a n : Z) : Prop :=
  (Z.gcd a n = 1 ->
   exists x, mod_inverse a n = Ok x /\ 0 <= x < n /\ (a * x) mod n = 1 /\
             forall y, 0 <= y < n -> (a * y) mod n = 1 -> y = x) /\
  (Z.gcd a n <> 1 -> mod_inverse a n = Ok 0).

(** The number of halvings that bring [z >= 0] to zero. *)
Definition bit_length (z : Z) : Z := if z =? 0 then 0 else Z.log2 z + 1.

(** What the specification states of the two block sizes of a key pair. *)
Definition same_block_size (modulus_n modulus_pq : Z) : Prop :=
  exists block_size,
    encrypt_block_size modulus_n = Ok block_size /\
    decrypt_block_size modulus_pq = Ok block_size.

(** The block that [ss_encrypt_file] builds from the bytes of one read. *)
Definition frame (block_size : Z) (data : list byte) : list byte :=
  xff :: data ++ repeat x00 (Z.to_nat (block_size - 1) - length data).

(** The input cut into successive reads of up to [nmemb] bytes, up to the
    first read that gives nothing. *)
Fixpoint reads_within (fuel nmemb : nat) (infile : list byte)
  : list (list byte) :=
  match fuel with
  | O => []
  | S fuel' =>
      match firstn nmemb infile with
      | [] => []
      | data => data :: reads_within fuel' nmemb (skipn nmemb infile)
      end
  end.

Definition reads (nmemb : nat) (infile : list byte) : list (list byte) :=
  reads_within (length infile) nmemb infile.

(** What holds of every integer [m] that [ss_encrypt_file] forms from a
    block of [block_size] bytes. *)
Definition framed_integer (block_size m : Z) : Prop :=
  255 * 2 ^ (8 * (block_size - 1)) <= m < 2 ^ (8 * block_size) /\
  m <> 0 /\
  Z.of_nat (length (mpz_export m)) = block_size /\
  exists payload, mpz_export m = xff :: payload.

(** The payload of a block: the bytes read, with zeros up to
    [block_size - 1]. *)
Definition padded (block_size : Z) (data : list byte) : list byte :=
  data ++ repeat x00 (Z.to_nat (block_size - 1) - length data).

(** What the specification states of a plaintext under the keys [n] and
    [(d, pq)]. *)
Definition round_trip_claim (n d pq : Z) (plaintext : list byte) : Prop :=
  exists tokens fuel,
    ss_encrypt_file plaintext n = Ok tokens /\
    ss_decrypt_file fuel (map Hex tokens) d pq = Ok plaintext.

(** Primality by trial division, to check the primes of the examples. *)
Fixpoint no_divisor_from (count : nat) (d p : Z) : bool :=
  match count with
  | O => true
  | S count' => negb (p mod d =? 0) && no_divisor_from count' (d + 1) p
  end.

Definition prime_by_trial (p : Z) : bool :=
  (1 <? p) && no_divisor_from (Z.to_nat (p - 2)) 2 p.

(** Key generation for 50 bits with one test round, on tapes that make it
    draw [p = 65537] and [q = 65539]. *)
Definition keygen50_world : world :=
  mkWorld (tape_of [32769; 3; 3; 3]) (tape_of [6]).

Definition keygen50_end : world :=
  mkWorld (mkTape (cells (state keygen50_world)) 4)
          (mkTape (cells (libc keygen50_world)) 1).

(** Key generation for 10 bits, the default of [keygen], with one test
    round, on tapes that make it draw [p = 3] and [q = 41]. *)
Definition keygen10_world : world :=
  mkWorld (tape_of [1; 0; 9; 1]) (tape_of [0]).

Definition keygen10_end : world :=
  mkWorld (mkTape (cells (state keygen10_world)) 4)
          (mkTape (cells (libc keygen10_world)) 1).

(** * Facts *)

(** ** Running loops *)

Section LoopFacts.

Context {S R : Type} (body : S -> result (S + R)).

Lemma loop_S fuel s :
  loop (Datatypes.S fuel) body s =
  match body s with
  | Ok (inl s') => loop fuel body s'
  | Ok (inr r) => Ok r
  | Fault => Fault
  | Gas => Gas
  end.
Proof. reflexivity. Qed.

(** A loop whose passes keep [I] and decrease [mu] leaves within [mu]
    passes, with a value that satisfies [Q]. *)
Lemma loop_total (I : S -> Prop) (Q : R -> Prop) (mu : S -> nat) :
  (forall s, I s ->
     match body s with
     | Ok (inl s') => I s' /\ (mu s' < mu s)%nat
     | Ok (inr r) => Q r
     | _ => False
     end) ->
  forall fuel s, I s -> (mu s <= fuel)%nat ->
  exists r, loop fuel body s = Ok r /\ Q r.
Proof.
  intros Hbody fuel.
  induction fuel as [|fuel IH]; intros s Hs Hmu; specialize (Hbody s Hs);
    simpl; destruct (body s) as [[s'|r]| |]; try contradiction; eauto.
  - destruct Hbody; lia.
  - destruct Hbody; apply IH; [assumption|lia].
Qed.

(** Whatever a loop leaves with satisfies [Q], when its passes keep [I]. *)
Lemma loop_partial (I : S -> Prop) (Q : R -> Prop) :
  (forall s, I s ->
     match body s with
     | Ok (inl s') => I s'
     | Ok (inr r) => Q r
     | _ => True
     end) ->
  forall fuel s r, I s -> loop fuel body s = Ok r -> Q r.
Proof.
  intros Hbody fuel.
  induction fuel as [|fuel IH]; intros s r Hs; specialize (Hbody s Hs);
    simpl; destruct (body s) as [[s'|r']| |]; try discriminate;
    try (intros [= <-]; assumption).
  apply IH; assumption.
Qed.

(** A loop that has left takes the same way out with more fuel. *)
Lemma loop_more_fuel fuel fuel' s r :
  (fuel <= fuel')%nat -> loop fuel body s = Ok r -> loop fuel' body s = Ok r.
Proof.
  revert fuel' s.
  induction fuel as [|fuel IH]; intros fuel' s Hle; simpl;
    destruct fuel' as [|fuel'']; simpl; try lia;
    destruct (body s) as [[s'|r']| |]; try discriminate; auto.
  apply IH; lia.
Qed.

(** A loop whose body never leaves gives [Gas], whatever the fuel. *)
Lemma loop_forever (I : S -> Prop) :
  (forall s, I s -> exists s', body s = Ok (inl s') /\ I s') ->
  forall fuel s, I s -> loop fuel body s = Gas.
Proof.
  intros Hbody fuel.
  induction fuel as [|fuel IH]; intros s Hs;
    destruct (Hbody s Hs) as (s' & E & Hs'); simpl; rewrite E; auto.
Qed.

End LoopFacts.

Section LoopMFacts.

Context {S R : Type} (body : S -> M (S + R)).

Lemma loopM_partial (I : S -> world -> Prop) (Q : R -> world -> Prop) :
  (forall s w, I s w ->
     match body s w with
     | Ok (inl s', w') => I s' w'
     | Ok (inr r, w') => Q r w'
     | _ => True
     end) ->
  forall fuel s w r w', I s w -> loopM fuel body s w = Ok (r, w') -> Q r w'.
Proof.
  intros Hbody fuel.
  induction fuel as [|fuel IH]; intros s w r w' Hs; specialize (Hbody s w Hs);
    simpl; destruct (body s w) as [[[s'|r'] w1]| |]; try discriminate;
    try (intros [= <- <-]; assumption).
  apply IH; assumption.
Qed.

(** A loop that draws random values leaves within [mu] passes when its
    passes keep [I] and decrease [mu], on every tape. *)
Lemma loopM_total (I : S -> Prop) (mu : S -> nat) :
  (forall s w, I s ->
     match body s w with
     | Ok (inl s', _) => I s' /\ (mu s' < mu s)%nat
     | Ok (inr _, _) => True
     | _ => False
     end) ->
  forall fuel s w, I s -> (mu s <= fuel)%nat ->
  exists r w', loopM fuel body s w = Ok (r, w').
Proof.
  intros Hbody fuel.
  induction fuel as [|fuel IH]; intros s w Hs Hmu; specialize (Hbody s w Hs);
    simpl; destruct (body s w) as [[[s'|r] w1]| |]; try contradiction; eauto.
  - destruct Hbody; lia.
  - destruct Hbody; apply IH; [assumption|lia].
Qed.

End LoopMFacts.

(** ** Taking binds apart *)

Lemma bind_Ok {A B : Type} (r : result A) (k : A -> result B) (b : B) :
  bind r k = Ok b -> exists a, r = Ok a /\ k a = Ok b.
Proof. destruct r; simpl; try discriminate; eauto. Qed.

Lemma bindM_Ok {A B : Type} (m : M A) (k : A -> M B) w b w' :
  bindM m k w = Ok (b, w') ->
  exists a w1, m w = Ok (a, w1) /\ k a w1 = Ok (b, w').
Proof.
  unfold bindM; destruct (m w) as [[a w1]| |]; try discriminate; eauto.
Qed.

Lemma lift_Ok {A : Type} (r : result A) w a w' :
  lift r w = Ok (a, w') -> r = Ok a /\ w' = w.
Proof. unfold lift; destruct r; try discriminate; intros [= <- <-]; auto. Qed.

Lemma ret_Ok {A : Type} (a b : A) w w' :
  ret a w = Ok (b, w') -> b = a /\ w' = w.
Proof. unfold ret; intros [= <- <-]; auto. Qed.

Lemma mpz_mod_Ok n d r :
  mpz_mod n d = Ok r -> d <> 0 /\ r = n mod Z.abs d.
Proof.
  unfold mpz_mod; destruct (Z.eqb_spec d 0); try discriminate.
  intros [= <-]; auto.
Qed.

Lemma mpz_mod_pos n d : 0 < d -> mpz_mod n d = Ok (n mod d).
Proof.
  intros Hd; unfold mpz_mod.
  destruct (Z.eqb_spec d 0); [lia|]. now rewrite Z.abs_eq by lia.
Qed.

(** ** pow_mod *)

Lemma bit_fuel_0 : bit_fuel 0 = 1%nat.
Proof. reflexivity. Qed.

Lemma bit_fuel_1 : bit_fuel 1 = 1%nat.
Proof. reflexivity. Qed.

(** C9.  For every base [a] and modulus [n > 1], [pow_mod a 0 n] is
    [1 mod n] and [pow_mod a 1 n] is [a mod n]. *)
Theorem pow_mod_exponent_0_1 (a n : Z) :
  1 < n ->
  pow_mod a 0 n = Ok (1 mod n) /\ pow_mod a 1 n = Ok (a mod n).
Proof.
  intros Hn; split.
  - unfold pow_mod; rewrite bit_fuel_0; simpl.
    now rewrite Z.mod_1_l by lia.
  - unfold pow_mod; rewrite bit_fuel_1.
    cbn [loop pow_mod_body].
    change (1 >? 0) with true; change (1 mod 2) with 1;
      change (negb (1 =? 0)) with true; change (1 / 2) with 0; cbv iota.
    rewrite !mpz_mod_pos by lia.
    cbn [bind loop pow_mod_body]. change (0 >? 0) with false; cbv iota.
    now rewrite Z.mul_1_l.
Qed.

Lemma pow_mod_exponent_0_1_witness :
  1 < 7 /\ pow_mod (-3) 0 7 = Ok (1 mod 7) /\ pow_mod (-3) 1 7 = Ok ((-3) mod 7).
Proof. split; [lia | apply (pow_mod_exponent_0_1 (-3) 7); lia]. Defined.

Lemma log2_half e : 2 <= e -> Z.log2 (e / 2) = Z.log2 e - 1.
Proof.
  intros He.
  replace (e / 2) with (Z.shiftr e 1)
    by (rewrite Z.shiftr_div_pow2 by lia; reflexivity).
  rewrite Z.log2_shiftr by lia.
  pose proof (Z.log2_le_mono 2 e ltac:(lia)) as Hlog.
  change (Z.log2 2) with 1 in Hlog. lia.
Qed.

Lemma pow_mod_passes_half e :
  0 < e -> (pow_mod_passes (e / 2) < pow_mod_passes e)%nat.
Proof.
  intros He; unfold pow_mod_passes.
  destruct (Z.gtb_spec e 0); [|lia].
  destruct (Z.gtb_spec (e / 2) 0) as [Hhalf|]; [|lia].
  assert (2 <= e) by (destruct (Z.eq_dec e 1) as [->|]; [discriminate Hhalf|lia]).
  rewrite log2_half by assumption.
  pose proof (Z.log2_le_mono 2 e ltac:(lia)) as Hlog.
  change (Z.log2 2) with 1 in Hlog. lia.
Qed.

Lemma pow_split b e : 0 <= e -> b ^ e = b ^ (e mod 2) * (b * b) ^ (e / 2).
Proof.
  intros He.
  rewrite (Z.div_mod e 2) at 1 by lia.
  assert (0 <= e / 2) by (apply Z.div_pos; lia).
  pose proof (Z.mod_pos_bound e 2 ltac:(lia)).
  rewrite Z.pow_add_r, Z.pow_mul_r, Z.pow_2_r, Z.mul_comm by lia.
  reflexivity.
Qed.

Lemma pow_mod_body_step base exponent modulus st :
  modulus <> 0 ->
  pow_mod_inv base exponent modulus st ->
  match pow_mod_body modulus st with
  | Ok (inl st') =>
      pow_mod_inv base exponent modulus st' /\
      (pow_mod_passes (snd st') < pow_mod_passes (snd st))%nat
  | Ok (inr r) => r = (base ^ exponent) mod Z.abs modulus
  | _ => False
  end.
Proof.
  intros Hm. destruct st as [[r b] e]. intros (He & Hinv & Hr).
  assert (HM : 0 < Z.abs modulus) by lia.
  unfold pow_mod_body, mpz_mod.
  destruct (Z.eqb_spec modulus 0); [contradiction|].
  destruct (Z.gtb_spec e 0) as [Hpos|Hzero].
  - assert (Hhalf : 0 <= e / 2) by (apply Z.div_pos; lia).
    pose proof (Z.mod_pos_bound e 2 ltac:(lia)) as Hbit.
    rewrite (pow_split b e He) in Hinv.
    destruct (Z.eqb_spec (e mod 2) 0) as [Heven|Hodd]; cbn [negb bind snd].
    + split; [|apply pow_mod_passes_half; assumption].
      rewrite Heven, Z.pow_0_r, Z.mul_1_l in Hinv.
      split; [assumption|]. split.
      * rewrite Z.mul_mod, <- Z.mod_pow_l, Z.mod_mod, Z.mod_pow_l,
          <- Z.mul_mod by lia.
        assumption.
      * destruct Hr as [Hr|[-> _]]; [now left|right].
        split; [reflexivity|]. clear - Hpos Heven.
        Z.to_euclidean_division_equations; lia.
    + split; [|apply pow_mod_passes_half; assumption].
      replace (e mod 2) with 1 in Hinv by lia. rewrite Z.pow_1_r in Hinv.
      split; [assumption|]. split.
      * rewrite Z.mul_mod, Z.mod_mod, <- Z.mod_pow_l, Z.mod_mod, Z.mod_pow_l,
          <- Z.mul_mod by lia.
        rewrite <- Hinv. f_equal. ring.
      * left. apply Z.mod_pos_bound; assumption.
  - assert (e = 0) by lia; subst e.
    rewrite Z.pow_0_r, Z.mul_1_r in Hinv.
    destruct Hr as [Hr|[_ Hr]]; [|lia].
    rewrite <- Hinv. symmetry; apply Z.mod_small; assumption.
Qed.

(** [pow_mod] is modular exponentiation; with exponent 0 it gives 1
    without reducing it. *)
Lemma pow_mod_spec base exponent modulus :
  0 <= exponent -> modulus <> 0 ->
  pow_mod base exponent modulus
  = Ok (if exponent =? 0 then 1 else (base ^ exponent) mod Z.abs modulus).
Proof.
  intros He Hm. destruct (Z.eqb_spec exponent 0) as [->|Hne]; [reflexivity|].
  unfold pow_mod.
  destruct (loop_total (pow_mod_body modulus)
              (pow_mod_inv base exponent modulus)
              (fun r => r = (base ^ exponent) mod Z.abs modulus)
              (fun st => pow_mod_passes (snd st))
              (fun st => pow_mod_body_step base exponent modulus st Hm)
              (bit_fuel exponent) (1, base, exponent))
    as (r & Hrun & ->); [| |assumption].
  - split; [assumption|]. split; [now rewrite Z.mul_1_l|]. right; lia.
  - cbn [snd]. unfold pow_mod_passes, bit_fuel.
    destruct (Z.gtb_spec exponent 0); [|lia]. rewrite Z.abs_eq by lia. lia.
Qed.

(** ** is_prime *)

Lemma is_prime_1 iterations w : is_prime 1 iterations w = Ok (false, w).
Proof. reflexivity. Qed.

Lemma is_prime_2 iterations w : is_prime 2 iterations w = Ok (true, w).
Proof. reflexivity. Qed.

Lemma is_prime_even k iterations w :
  Z.even k = true -> k <> 2 -> is_prime k iterations w = Ok (false, w).
Proof.
  intros He Hk; unfold is_prime.
  destruct (Z.eqb_spec k 1) as [->|]; [discriminate|].
  destruct (Z.eqb_spec k 2); [contradiction|].
  now rewrite He.
Qed.

Lemma mpz_urandomm_eq n w :
  n <> 0 -> mpz_urandomm n w = Ok (raw_draw w mod Z.abs n, after_draw w).
Proof.
  intros Hn; unfold mpz_urandomm.
  destruct (Z.eqb_spec n 0); [contradiction|reflexivity].
Qed.

(** With a single round, an odd [number] other than 1 is judged by
    [is_prime_round] on the one base drawn. *)
Lemma is_prime_single_round number s r w :
  number <> 1 -> Z.even number = false -> number <> 4 ->
  loop (bit_fuel (number - 1)) (is_prime_factor_body (number - 1)) 1
    = Ok (s, r) ->
  is_prime number 1 w =
    match is_prime_round number (number - 1) s r 2
                         (raw_draw w mod Z.abs (number - 4) + 2) with
    | Ok passed => Ok (passed, after_draw w)
    | Fault => Fault
    | Gas => Gas
    end.
Proof.
  intros H1 Hodd H4 Hfactor; unfold is_prime.
  destruct (Z.eqb_spec number 1); [contradiction|].
  destruct (Z.eqb_spec number 2) as [->|]; [discriminate|].
  rewrite Hodd, Hfactor.
  unfold bindM at 1, lift at 1.
  change (Z.to_nat 1) with 1%nat.
  cbn [loopM]. unfold is_prime_body at 1.
  change (0 <? 1) with true; cbv iota.
  unfold bindM at 1. rewrite mpz_urandomm_eq by lia.
  unfold bindM at 1, lift at 1.
  destruct (is_prime_round _ _ _ _ _ _) as [[|]| |]; try reflexivity.
Qed.

Lemma is_prime_by_all_bases number s r expected w :
  number <> 1 -> Z.even number = false -> number <> 4 ->
  loop (bit_fuel (number - 1)) (is_prime_factor_body (number - 1)) 1
    = Ok (s, r) ->
  all_bases number s r expected = true ->
  is_prime number 1 w = Ok (expected, after_draw w).
Proof.
  intros H1 Hodd H4 Hfactor Hall.
  rewrite (is_prime_single_round number s r) by assumption.
  unfold all_bases in Hall; rewrite forallb_forall in Hall.
  pose proof (Z.mod_pos_bound (raw_draw w) (Z.abs (number - 4)) ltac:(lia)) as Hb.
  specialize (Hall (Z.to_nat (raw_draw w mod Z.abs (number - 4)))).
  rewrite Z2Nat.id in Hall by lia.
  destruct (is_prime_round _ _ _ _ _ _) as [passed| |].
  - rewrite (eqb_prop passed expected); [reflexivity|].
    apply Hall, in_seq; lia.
  - assert (false = true); [|discriminate]. apply Hall, in_seq; lia.
  - assert (false = true); [|discriminate]. apply Hall, in_seq; lia.
Qed.

Ltac one_round s r :=
  intros; apply (is_prime_by_all_bases _ s r);
  [lia | reflexivity | lia | vm_compute; reflexivity | vm_compute; reflexivity].

Lemma is_prime_3 w : is_prime 3 1 w = Ok (true, after_draw w).
Proof. one_round 1 1. Qed.
Lemma is_prime_5 w : is_prime 5 1 w = Ok (true, after_draw w).
Proof. one_round 2 1. Qed.
Lemma is_prime_7 w : is_prime 7 1 w = Ok (true, after_draw w).
Proof. one_round 1 3. Qed.
Lemma is_prime_11 w : is_prime 11 1 w = Ok (true, after_draw w).
Proof. one_round 1 5. Qed.
Lemma is_prime_9 w : is_prime 9 1 w = Ok (false, after_draw w).
Proof. one_round 3 1. Qed.
Lemma is_prime_15 w : is_prime 15 1 w = Ok (false, after_draw w).
Proof. one_round 1 7. Qed.

(** C7.  [is_prime] gives [false] for 1, [true] for 2 and [false] for every
    even number above 2, whatever the number of rounds; with one round it
    gives [true] for 3, 5, 7 and 11 and [false] for 4, 6, 8, 9 and 15,
    whatever base the round draws.  The even numbers and 1 and 2 leave the
    generator untouched; the odd ones take one draw from it. *)
Theorem is_prime_small_inputs :
  (forall iterations w, is_prime 1 iterations w = Ok (false, w)) /\
  (forall iterations w, is_prime 2 iterations w = Ok (true, w)) /\
  (forall k iterations w,
     2 < k -> Z.even k = true -> is_prime k iterations w = Ok (false, w)) /\
  (forall k w, In k [3; 5; 7; 11] -> is_prime k 1 w = Ok (true, after_draw w)) /\
  (forall k w, In k [4; 6; 8] -> is_prime k 1 w = Ok (false, w)) /\
  (forall k w, In k [9; 15] -> is_prime k 1 w = Ok (false, after_draw w)).
Proof.
  repeat split.
  - intros; apply is_prime_even; [assumption|lia].
  - intros k w Hk; simpl in Hk.
    destruct Hk as [<-|[<-|[<-|[<-|[]]]]];
      auto using is_prime_3, is_prime_5, is_prime_7, is_prime_11.
  - intros k w Hk; simpl in Hk.
    destruct Hk as [<-|[<-|[<-|[]]]]; reflexivity.
  - intros k w Hk; simpl in Hk.
    destruct Hk as [<-|[<-|[]]]; auto using is_prime_9, is_prime_15.
Qed.

Lemma is_prime_small_inputs_witness :
  (2 < 10 /\ Z.even 10 = true /\
   is_prime 10 50 make_prime_world = Ok (false, make_prime_world)) /\
  (In 7 [3; 5; 7; 11] /\
   is_prime 7 1 make_prime_world = Ok (true, after_draw make_prime_world)) /\
  (In 8 [4; 6; 8] /\
   is_prime 8 1 make_prime_world = Ok (false, make_prime_world)) /\
  (In 15 [9; 15] /\
   is_prime 15 1 make_prime_world = Ok (false, after_draw make_prime_world)).
Proof.
  destruct is_prime_small_inputs as (_ & _ & Heven & Hprimes & Hevens & Hodds).
  split; [split; [lia|split; [reflexivity|apply Heven; [lia|reflexivity]]]|].
  split; [split; [simpl; tauto|apply Hprimes; simpl; tauto]|].
  split; [split; [simpl; tauto|apply Hevens; simpl; tauto]|].
  split; [simpl; tauto|apply Hodds; simpl; tauto].
Defined.

(** The first loop of [is_prime] finds the odd part of [number - 1]. *)
Lemma is_prime_factor_spec number :
  3 <= number -> Z.odd number = true -> Z.log2 number < 2 ^ 64 - 1 ->
  exists s r,
    loop (bit_fuel (number - 1)) (is_prime_factor_body (number - 1)) 1
      = Ok (s, r) /\
    1 <= s < 2 ^ 64 /\ 0 < r /\ Z.odd r = true /\
    r = Z.shiftr (number - 1) s.
Proof.
  intros Hn Hodd Hlog.
  set (m := number - 1).
  assert (Hm : 2 <= m) by lia.
  assert (Hmeven : Z.even m = true).
  { unfold m. rewrite Z.sub_1_r, Z.even_pred. assumption. }
  assert (Hmlog : Z.log2 m < 2 ^ 64 - 1)
    by (pose proof (Z.log2_le_mono m number ltac:(lia)); lia).
  destruct (loop_total (is_prime_factor_body m)
              (fun s => 1 <= s /\ 2 <= Z.shiftr m (s - 1) /\
                        Z.even (Z.shiftr m (s - 1)) = true)
              (fun res => let '(s, r) := res in
                          1 <= s < 2 ^ 64 /\ 0 < r /\ Z.odd r = true /\
                          r = Z.shiftr m s)
              (fun s => Z.to_nat (Z.log2 (Z.shiftr m (s - 1))))
           ) with (fuel := bit_fuel m) (s := 1) as ([s r] & Hrun & Hpost).
  - intros s (Hs & Hprev & Heven). unfold is_prime_factor_body.
    assert (Hshift : Z.shiftr m s = Z.shiftr m (s - 1) / 2).
    { replace s with ((s - 1) + 1) at 1 by ring.
      rewrite <- Z.shiftr_shiftr, (Z.shiftr_div_pow2 _ 1) by lia.
      reflexivity. }
    assert (Hspos : 0 < Z.shiftr m s)
      by (rewrite Hshift; apply Z.div_str_pos; lia).
    assert (Hbound : s <= Z.log2 m).
    { rewrite Z.shiftr_div_pow2 in Hspos by lia.
      apply Z.log2_le_pow2; [lia|].
      assert (0 < 2 ^ s) by (apply Z.pow_pos_nonneg; lia).
      destruct (Z_lt_le_dec m (2 ^ s)); [|assumption].
      rewrite Z.div_small in Hspos by lia. lia. }
    destruct (Z.odd (Z.shiftr m s)) eqn:Hr.
    + repeat split; try lia; assumption.
    + assert (Hw : wrap64 (s + 1) = s + 1)
        by (unfold wrap64; apply Z.mod_small; lia).
      rewrite Hw. replace (s + 1 - 1) with s by ring.
      assert (Heven' : Z.even (Z.shiftr m s) = true)
        by (rewrite <- Z.negb_odd, Hr; reflexivity).
      assert (H2 : 2 <= Z.shiftr m s).
      { destruct (Z.eq_dec (Z.shiftr m s) 1) as [E|]; [|lia].
        rewrite E in Hr; discriminate. }
      repeat split; try lia; try assumption.
      rewrite Hshift, (log2_half _ Hprev).
      pose proof (Z.log2_le_mono 2 _ Hprev) as Hl.
      change (Z.log2 2) with 1 in Hl.
      generalize dependent (Z.log2 (Z.shiftr m (s - 1))). intros; lia.
  - change (1 - 1) with 0. rewrite Z.shiftr_0_r.
    split; [lia|]. split; assumption.
  - change (1 - 1) with 0. rewrite Z.shiftr_0_r. unfold bit_fuel.
    rewrite Z.abs_eq by lia. lia.
  - exists s, r. split; assumption.
Qed.

Lemma pow_mod_returns base exponent modulus :
  0 <= exponent -> modulus <> 0 ->
  exists result, pow_mod base exponent modulus = Ok result.
Proof. intros He Hm; rewrite pow_mod_spec by assumption; eauto. Qed.

(** One round of the test gives a verdict, whatever the base. *)
Lemma is_prime_round_returns number s r base :
  number <> 0 -> 0 < r -> 1 <= s < 2 ^ 64 ->
  exists passed,
    is_prime_round number (number - 1) s r 2 base = Ok passed.
Proof.
  intros Hn Hr Hs. unfold is_prime_round.
  destruct (pow_mod_returns base r number) as (witness & ->); [lia|assumption|].
  cbn [bind]. destruct (_ || _); [eauto|].
  assert (Hw : wrap64 (s - 1) = s - 1)
    by (unfold wrap64; apply Z.mod_small; lia).
  destruct (loop_total (is_prime_square_body number (number - 1) s 2)
              (fun st => 1 <= fst st <= s)
              (fun _ => True)
              (fun st => Z.to_nat (s - fst st)))
    with (fuel := Z.to_nat (wrap64 (s - 1))) (s := (1, witness))
    as (after & -> & _).
  - intros [j w] Hj; cbn [fst] in Hj. unfold is_prime_square_body.
    rewrite Hw.
    destruct (Z.leb_spec j (s - 1)); cbn [andb]; [|trivial].
    destruct (negb (w =? number - 1)); [|trivial].
    destruct (pow_mod_returns w 2 number) as (w' & ->); [lia|assumption|].
    cbn [bind]. destruct (w' =? 1); [trivial|].
    assert (Hj1 : wrap64 (j + 1) = j + 1)
      by (unfold wrap64; apply Z.mod_small; lia).
    rewrite Hj1; cbn [fst]. split; lia.
  - cbn [fst]; lia.
  - cbn [fst]; rewrite Hw; lia.
  - cbn [bind]. destruct after as [w|]; [destruct (negb _)|]; eauto.
Qed.

(** [is_prime] gives a verdict for every odd number from 3 on, whatever the
    generator gives: no loop of it runs out of passes and no operation of it
    is undefined.  (The bound on [number] keeps the 64-bit counter [s] from
    wrapping around.) *)
Lemma is_prime_returns number iterations w :
  3 <= number -> Z.odd number = true -> Z.log2 number < 2 ^ 64 - 1 ->
  0 <= iterations < 2 ^ 64 ->
  exists verdict w', is_prime number iterations w = Ok (verdict, w').
Proof.
  intros Hn Hodd Hlog Hit.
  destruct (is_prime_factor_spec number Hn Hodd Hlog)
    as (s & r & Hfactor & Hs & Hr & _).
  unfold is_prime.
  destruct (Z.eqb_spec number 1); [lia|].
  destruct (Z.eqb_spec number 2) as [->|]; [discriminate|].
  rewrite <- Z.negb_odd, Hodd; cbn [negb].
  rewrite Hfactor. unfold bindM at 1, lift at 1.
  apply (loopM_total _ (fun i => 0 <= i <= iterations)
           (fun i => Z.to_nat (iterations - i))); [|lia|lia].
  intros i w1 Hi. unfold is_prime_body.
  destruct (Z.ltb_spec i iterations); [|exact I].
  assert (Hmax : number - 4 <> 0).
  { intros E. replace number with 4 in Hodd by lia. discriminate. }
  unfold bindM at 1. rewrite mpz_urandomm_eq by assumption.
  destruct (is_prime_round_returns number s r
              (raw_draw w1 mod Z.abs (number - 4) + 2)) as (passed & Hround);
    [lia|assumption|assumption|].
  unfold bindM, lift. rewrite Hround.
  destruct passed; [|exact I].
  assert (Hw : wrap64 (i + 1) = i + 1)
    by (unfold wrap64; apply Z.mod_small; lia).
  unfold ret. rewrite Hw. split; lia.
Qed.

(** ** make_prime *)

Lemma is_prime_0 iterations w : is_prime 0 iterations w = Ok (false, w).
Proof. reflexivity. Qed.

Lemma mpz_urandomb_Ok n w x w' :
  0 <= n -> mpz_urandomb n w = Ok (x, w') -> 0 <= x < 2 ^ n.
Proof.
  intros Hn; unfold mpz_urandomb; intros [= <- _].
  apply Z.mod_pos_bound, Z.pow_pos_nonneg; lia.
Qed.

(** What [make_prime] leaves with was accepted by [is_prime] in the world
    just before, and is a draw of [bit_size] bits plus the floor. *)
Lemma make_prime_Ok fuel bit_size iterations w v w' :
  0 <= bit_size ->
  make_prime fuel bit_size iterations w = Ok (v, w') ->
  (exists w0, is_prime v iterations w0 = Ok (true, w')) /\
  (exists x, 0 <= x < 2 ^ bit_size /\ v = x + 2 ^ wrap64 (bit_size - 1)).
Proof.
  intros Hbits; unfold make_prime; rewrite Z.mul_1_l.
  set (lower_bound := 2 ^ wrap64 (bit_size - 1)).
  intros Hrun.
  refine (loopM_partial (make_prime_body bit_size iterations lower_bound)
            (fun prime _ =>
               prime = 0 \/
               exists x, 0 <= x < 2 ^ bit_size /\ prime = x + lower_bound)
            (fun v w' =>
               (exists w0, is_prime v iterations w0 = Ok (true, w')) /\
               (exists x, 0 <= x < 2 ^ bit_size /\ v = x + lower_bound))
            _ fuel 0 w v w' (or_introl eq_refl) Hrun).
  intros prime w1 Hprime; unfold make_prime_body, bindM.
  destruct (is_prime prime iterations w1) as [[[|] w2]| |] eqn:Hcheck;
    cbn [negb]; trivial.
  - unfold ret; split; [eauto|].
    destruct Hprime as [->|Hprime]; [|assumption].
    rewrite is_prime_0 in Hcheck; discriminate.
  - destruct (mpz_urandomb bit_size w2) as [[x w3]| |] eqn:Hdraw; trivial.
    unfold ret; right; exists x; split; [|reflexivity].
    eapply mpz_urandomb_Ok; eassumption.
Qed.

Lemma wrap64_pred bit_size :
  1 <= bit_size < 2 ^ 64 -> wrap64 (bit_size - 1) = bit_size - 1.
Proof. intros H; unfold wrap64; apply Z.mod_small; lia. Qed.

(** C6.  Whenever [make_prime bits iterations] returns, the value [v] it
    returns has just passed [is_prime v iterations], and [v >= 2^(bits-1)]. *)
Theorem make_prime_returns_accepted fuel bits iterations w v w' :
  0 <= bits < 2 ^ 64 ->
  make_prime fuel bits iterations w = Ok (v, w') ->
  (exists w0, is_prime v iterations w0 = Ok (true, w')) /\
  2 ^ (bits - 1) <= v.
Proof.
  intros Hbits Hrun.
  destruct (make_prime_Ok _ _ _ _ _ _ (proj1 Hbits) Hrun)
    as (Haccepted & x & Hx & ->).
  split; [assumption|].
  destruct (Z.eq_dec bits 0) as [->|Hne].
  - change (2 ^ (0 - 1)) with 0.
    assert (0 < 2 ^ wrap64 (0 - 1)) by (apply Z.pow_pos_nonneg; [lia|apply Z.mod_pos_bound; lia]).
    lia.
  - rewrite wrap64_pred by lia. lia.
Qed.

Lemma wrap64_nonneg z : 0 <= wrap64 z.
Proof. unfold wrap64; apply Z.mod_pos_bound; lia. Qed.

(** ** ss_make_pub *)

(** What [ss_make_pub] leaves with: two values [make_prime] gave, that passed
    the test at the end of the loop body, and their product [p * p * q]. *)
Lemma ss_make_pub_Ok fuel total_bits iterations w p q n w' :
  ss_make_pub fuel total_bits iterations w = Ok (p, q, n, w') ->
  (1 <= p /\ 1 <= q) /\
  ((q - 1) mod p <> 0 /\ (p - 1) mod q <> 0) /\
  n = p * p * q.
Proof.
  unfold ss_make_pub; intros Hrun.
  apply bindM_Ok in Hrun; destruct Hrun as ([p0 q0] & w1 & Hloop & Hret).
  apply ret_Ok in Hret; destruct Hret as [[= -> -> ->] ->].
  refine ((fun H => conj (proj1 H) (conj (proj2 H) eq_refl)) _).
  refine (loopM_partial _ (fun _ _ => True)
            (fun pq _ =>
               (1 <= fst pq /\ 1 <= snd pq) /\
               ((snd pq - 1) mod fst pq <> 0 /\ (fst pq - 1) mod snd pq <> 0))
            _ fuel (0, 0) w (p0, q0) w1 I Hloop).
  clear; intros st w _; unfold ss_make_pub_body.
  destruct (_ <~ rand;; _) as [[[st'|[p q]] w']| |] eqn:Hbody; trivial.
  apply bindM_Ok in Hbody; destruct Hbody as (r & w1 & _ & Hbody).
  destruct (_ =? 0); [discriminate|].
  apply bindM_Ok in Hbody; destruct Hbody as (p1 & w2 & Hp & Hbody).
  apply bindM_Ok in Hbody; destruct Hbody as (q1 & w3 & Hq & Hbody).
  apply bindM_Ok in Hbody; destruct Hbody as (c1 & w4 & Hc1 & Hbody).
  apply bindM_Ok in Hbody; destruct Hbody as (c2 & w5 & Hc2 & Hbody).
  apply lift_Ok in Hc1, Hc2; destruct Hc1 as [Hc1 ->], Hc2 as [Hc2 ->].
  apply mpz_mod_Ok in Hc1, Hc2; destruct Hc1 as [Hp0 ->], Hc2 as [Hq0 ->].
  destruct (Z.eqb_spec ((q1 - 1) mod Z.abs p1) 0) as [|Hn1];
    [discriminate|].
  destruct (Z.eqb_spec ((p1 - 1) mod Z.abs q1) 0) as [|Hn2];
    [discriminate|].
  apply ret_Ok in Hbody; destruct Hbody as [[= -> ->] _]; cbn [fst snd].
  apply make_prime_Ok in Hp, Hq; try apply wrap64_nonneg.
  destruct Hp as (_ & xp & Hxp & ->), Hq as (_ & xq & Hxq & ->).
  assert (Hfloor : forall z, 0 < 2 ^ wrap64 z)
    by (intros; apply Z.pow_pos_nonneg; [lia|apply wrap64_nonneg]).
  pose proof (Hfloor (wrap64 (r mod wrap64 (wrap64 (wrap64 (2 * total_bits) / 5 - total_bits / 5) + 1) + total_bits / 5) - 1)).
  match goal with |- context [xq + 2 ^ wrap64 ?z] => pose proof (Hfloor z) end.
  rewrite Z.abs_eq in Hn1, Hn2 by lia.
  repeat split; first [lia | assumption].
Qed.

(** C5.  A key pair that key generation gives has [(q-1) mod p <> 0] and
    [(p-1) mod q <> 0], and the [n] that [ss_make_priv] computes again from
    [p] and [q] is the public modulus. *)
Theorem ss_make_pub_invariant fuel total_bits iterations w p q n w' :
  ss_make_pub fuel total_bits iterations w = Ok (p, q, n, w') ->
  (q - 1) mod p <> 0 /\ (p - 1) mod q <> 0 /\ ss_make_priv_n p q = n.
Proof.
  intros Hrun; apply ss_make_pub_Ok in Hrun.
  destruct Hrun as (_ & [H1 H2] & ->).
  repeat split; try assumption.
  unfold ss_make_priv_n; ring.
Qed.

Lemma keygen24_run :
  ss_make_pub 5 24 1 keygen24_world = Ok (11, 65537, 7929977, keygen24_end).
Proof. vm_compute. reflexivity. Qed.

Lemma ss_make_pub_invariant_witness :
  ss_make_pub 5 24 1 keygen24_world = Ok (11, 65537, 7929977, keygen24_end) /\
  (65537 - 1) mod 11 <> 0 /\ (11 - 1) mod 65537 <> 0 /\
  ss_make_priv_n 11 65537 = 7929977.
Proof.
  split; [vm_compute; reflexivity|].
  apply (ss_make_pub_invariant 5 24 1 keygen24_world 11 65537 7929977 keygen24_end).
  vm_compute; reflexivity.
Defined.

Lemma make_prime_returns_accepted_witness :
  0 <= 4 < 2 ^ 64 /\
  make_prime 5 4 3 make_prime_world = Ok (11, make_prime_end) /\
  (exists w0, is_prime 11 3 w0 = Ok (true, make_prime_end)) /\
  2 ^ (4 - 1) <= 11.
Proof.
  split; [lia|]. split; [vm_compute; reflexivity|].
  apply (make_prime_returns_accepted 5 4 3 make_prime_world).
  - lia.
  - vm_compute. reflexivity.
Defined.

(** ** Euclid's algorithm: gcd and mod_inverse *)

Lemma euclid_passes_decreases r0 r1 :
  0 < r1 <= r0 ->
  (euclid_passes r1 (r0 mod r1) < euclid_passes r0 r1)%nat.
Proof.
  intros H; unfold euclid_passes.
  pose proof (Z.mod_pos_bound r0 r1 ltac:(lia)) as Hr.
  pose proof (Z.div_mod r0 r1 ltac:(lia)) as Hdiv.
  assert (1 <= r0 / r1) by (apply Z.div_le_lower_bound; lia).
  destruct (Z.eqb_spec r1 0); [lia|].
  destruct (Z.eqb_spec (r0 mod r1) 0); [lia|].
  assert (Hdouble : 2 * (r1 * (r0 mod r1)) <= r0 * r1) by nia.
  apply Z.log2_le_mono in Hdouble.
  rewrite Z.log2_double in Hdouble by nia.
  pose proof (Z.log2_nonneg (r1 * (r0 mod r1))). lia.
Qed.

Lemma euclid_passes_le r0 r1 z :
  0 <= r1 -> 0 <= r0 -> r0 * r1 <= Z.abs z ->
  (euclid_passes r0 r1 <= bit_fuel z)%nat.
Proof.
  intros H1 H0 Hle; unfold euclid_passes, bit_fuel.
  destruct (r1 =? 0); [lia|].
  apply Z.log2_le_mono in Hle. lia.
Qed.

Lemma mod_inverse_body_step a n st :
  mod_inverse_inv a n st ->
  match mod_inverse_body st with
  | Ok (inl st') =>
      mod_inverse_inv a n st' /\
      (euclid_passes (fst (fst (fst st'))) (snd (fst (fst st')))
       < euclid_passes (fst (fst (fst st))) (snd (fst (fst st))))%nat
  | Ok (inr res) => mod_inverse_post a n res
  | _ => False
  end.
Proof.
  destruct st as [[[r0 r1] t0] t1].
  intros (Hr & Hr0 & Hgcd & Hc0 & Hc1 & Hsign).
  unfold mod_inverse_body, mpz_fdiv_q.
  destruct (Z.eqb_spec r1 0) as [->|Hne]; cbn [negb bind fst snd].
  - rewrite Z.gcd_0_r, Z.abs_eq in Hgcd by lia.
    split; [congruence|]. split; [assumption|].
    destruct Hsign as [(? & ? & ?)|(? & ? & ?)];
      [rewrite Z.abs_neq by lia | rewrite Z.abs_eq by lia]; lia.
  - rewrite <- (Z.mul_comm r1), <- Z.mod_eq by assumption.
    pose proof (Z.mod_pos_bound r0 r1 ltac:(lia)) as Hmod.
    pose proof (Z.div_mod r0 r1 ltac:(lia)) as Hdiv.
    assert (Hq : 1 <= r0 / r1) by (apply Z.div_le_lower_bound; lia).
    split; [|apply euclid_passes_decreases; lia].
    split; [lia|]. split; [lia|]. split; [|split; [assumption|split]].
    + rewrite <- Hgcd, (Z.gcd_comm r1), Z.gcd_mod by lia. apply Z.gcd_comm.
    + replace ((t0 - r0 / r1 * t1) * a - r0 mod r1)
        with ((t0 * a - r0) - (r0 / r1) * (t1 * a - r1))
        by (rewrite (Z.mod_eq r0 r1) by lia; ring).
      apply Z.divide_sub_r; [assumption|].
      apply Z.divide_mul_r; assumption.
    + set (q := r0 / r1) in *. set (r2 := r0 mod r1) in *.
      destruct Hsign as [(Ht & Hdet & Hbound)|(Ht & Hdet & Hbound)];
        [right|left]; repeat split; nia.
Qed.

Lemma mod_inverse_loop_small a n fuel :
  0 <= a <= n -> 0 < n ->
  (euclid_passes n a <= fuel)%nat ->
  exists res,
    loop fuel mod_inverse_body (n, a, 0, 1) = Ok res /\
    mod_inverse_post a n res.
Proof.
  intros Ha Hn Hfuel.
  apply (loop_total mod_inverse_body (mod_inverse_inv a n)
           (mod_inverse_post a n)
           (fun st => euclid_passes (fst (fst (fst st))) (snd (fst (fst st))))).
  - apply mod_inverse_body_step.
  - unfold mod_inverse_inv.
    split; [lia|]. split; [lia|]. split; [apply Z.gcd_comm|].
    split; [exists (-1); ring|]. split; [exists 0; ring|]. left; lia.
  - assumption.
Qed.

(** Two passes bring a value above the modulus below it. *)
Lemma mod_inverse_loop_large a n fuel :
  0 < n < a ->
  loop (S (S fuel)) mod_inverse_body (n, a, 0, 1) =
  loop fuel mod_inverse_body (n, a mod n, 0, 1).
Proof.
  intros H.
  cbn [loop]. unfold mod_inverse_body at 1, mpz_fdiv_q.
  destruct (Z.eqb_spec a 0); [lia|]. cbn [negb bind].
  rewrite (Z.div_small n a) by lia.
  replace (n - 0 * a) with n by ring. replace (0 - 0 * 1) with 0 by ring.
  unfold mod_inverse_body at 1, mpz_fdiv_q.
  destruct (Z.eqb_spec n 0); [lia|]. cbn [negb bind].
  rewrite (Z.mod_eq a n) by lia.
  replace (a - a / n * n) with (a - n * (a / n)) by ring.
  replace (1 - a / n * 0) with 1 by ring.
  reflexivity.
Qed.

Lemma mod_inverse_loop_spec a n :
  0 <= a -> 0 < n ->
  exists res,
    loop (bit_fuel (a * n) + 2) mod_inverse_body (n, a, 0, 1) = Ok res /\
    mod_inverse_post a n res.
Proof.
  intros Ha Hn.
  destruct (Z_le_gt_dec a n) as [Hle|Hgt].
  - apply mod_inverse_loop_small; try lia.
    etransitivity; [apply (euclid_passes_le n a (a * n)); nia|lia].
  - replace (bit_fuel (a * n) + 2)%nat with (S (S (bit_fuel (a * n)))) by lia.
    rewrite mod_inverse_loop_large by lia.
    pose proof (Z.mod_pos_bound a n Hn) as Hmod.
    destruct (mod_inverse_loop_small (a mod n) n (bit_fuel (a * n)))
      as ([g t] & Hrun & Hg & Hcong & Hbound); try lia.
    { apply euclid_passes_le; nia. }
    exists (g, t); split; [assumption|].
    rewrite Z.gcd_mod, Z.gcd_comm in Hg by lia.
    repeat split; try assumption.
    replace (t * a - g) with ((t * (a mod n) - g) + n * (t * (a / n)))
      by (rewrite (Z.mod_eq a n) by lia; ring).
    apply Z.divide_add_r; [assumption|].
    apply Z.divide_factor_l.
Qed.

Lemma inverse_unique a n x y :
  0 < n -> 0 <= x < n -> 0 <= y < n ->
  (a * x) mod n = 1 -> (a * y) mod n = 1 -> y = x.
Proof.
  intros Hn Hx Hy Hax Hay.
  rewrite <- (Z.mod_small x n), <- (Z.mod_small y n) by lia.
  destruct (Z.eq_dec n 1) as [->|Hn1]; [now rewrite !Z.mod_1_r|].
  transitivity ((y * (a * x)) mod n).
  - rewrite Z.mul_mod, Hax, Z.mul_1_r, Z.mod_mod by lia.
    reflexivity.
  - replace (y * (a * x)) with ((a * y) * x) by ring.
    rewrite Z.mul_mod, Hay, Z.mul_1_l, Z.mod_mod by lia.
    reflexivity.
Qed.

Lemma mod_of_divide_pred n z : 1 < n -> (n | z - 1) -> z mod n = 1.
Proof.
  intros Hn [k Hk]. replace z with (1 + k * n) by lia.
  rewrite Z.mod_add by lia. apply Z.mod_1_l; lia.
Qed.

(** Between 0 and the modulus, [mod_inverse] gives an inverse of a value
    that has one. *)
Lemma mod_inverse_coprime a n :
  0 <= a -> 1 < n -> Z.gcd a n = 1 ->
  exists x, mod_inverse a n = Ok x /\ 0 <= x < n /\ (a * x) mod n = 1.
Proof.
  intros Ha Hn Hgcd.
  destruct (mod_inverse_loop_spec a n) as ([g t] & Hrun & Hg & Hcong & Hbound);
    try lia.
  unfold mod_inverse; rewrite Hrun; cbn [bind].
  rewrite Hgcd in Hg; subst g.
  change (1 >? 1) with false; cbv iota.
  assert (Ht : - n < t < n).
  { assert (Z.abs t <> n); [|lia].
    intros Habs.
    assert (Hdiv : (n | t))
      by (rewrite <- Habs; apply Z.divide_abs_l, Z.divide_refl).
    assert (H1 : (n | 1)).
    { replace 1 with (t * a - (t * a - 1)) by ring.
      apply Z.divide_sub_r; [apply Z.divide_mul_l|]; assumption. }
    apply Z.divide_1_r in H1; lia. }
  assert (Hinv : forall x, (n | x - t) -> (a * x) mod n = 1).
  { intros x Hx; apply mod_of_divide_pred; [lia|].
    replace (a * x - 1) with ((t * a - 1) + (x - t) * a) by ring.
    apply Z.divide_add_r; [|apply Z.divide_mul_l]; assumption. }
  destruct (Z.ltb_spec t 0).
  - exists (t + n); split; [reflexivity|].
    split; [lia|]. apply Hinv; exists 1; ring.
  - exists t; split; [reflexivity|].
    split; [lia|]. apply Hinv; exists 0; ring.
Qed.

(** [mod_inverse] gives 0 for a value that has a factor in common with the
    modulus. *)
Lemma mod_inverse_common_factor a n :
  0 <= a -> 1 < n -> Z.gcd a n <> 1 -> mod_inverse a n = Ok 0.
Proof.
  intros Ha Hn Hgcd.
  destruct (mod_inverse_loop_spec a n) as ([g t] & Hrun & Hg & _); try lia.
  pose proof (Z.gcd_nonneg a n) as Hgnn.
  assert (Hg0 : Z.gcd a n <> 0) by (intros [_ E]%Z.gcd_eq_0; lia).
  unfold mod_inverse; rewrite Hrun; cbn [bind]. subst g.
  destruct (Z.gtb_spec (Z.gcd a n) 1); [reflexivity|lia].
Qed.

(** C3, as amended.  For every [a >= 0] and [n > 1]: when [gcd a n = 1],
    [mod_inverse a n] is the one [x] of [0 .. n-1] with [a * x = 1] modulo
    [n]; otherwise it is 0. *)
Theorem mod_inverse_nonneg (a n : Z) :
  0 <= a -> 1 < n -> mod_inverse_claim a n.
Proof.
  intros Ha Hn. split; intros Hgcd.
  - destruct (mod_inverse_coprime a n Ha Hn Hgcd) as (x & Hx & Hrange & Hax).
    exists x. split; [assumption|]. split; [assumption|].
    split; [assumption|].
    intros y Hy Hay; apply (inverse_unique a n); try assumption; lia.
  - now apply mod_inverse_common_factor.
Qed.

Lemma mod_inverse_nonneg_witness :
  0 <= 10 /\ 1 < 7 /\ mod_inverse_claim 10 7.
Proof.
  split; [lia|]. split; [lia|]. apply (mod_inverse_nonneg 10 7); lia.
Defined.

(** C3 as it stands fails for a negative [a]: [mod_inverse (-1) 5] is 1,
    which is no inverse of -1 modulo 5 (that is 4). *)
Lemma mod_inverse_negative_counterexample : ~ mod_inverse_claim (-1) 5.
Proof.
  intros [Hcoprime _].
  destruct (Hcoprime eq_refl) as (x & Hx & _ & Hax & _).
  vm_compute in Hx. injection Hx as <-. vm_compute in Hax. discriminate.
Qed.

(** With a negative [a] that has a common factor with [n], the result is
    not the 0 that stands for no inverse. *)
Example mod_inverse_negative_common_factor : mod_inverse (-2) 4 = Ok 1.
Proof. reflexivity. Qed.

Lemma gcd_body_step a b st :
  (let '(r0, r1) := st in 0 <= r1 <= r0 /\ Z.gcd r0 r1 = Z.gcd a b) ->
  match gcd_body st with
  | Ok (inl st') =>
      (let '(r0, r1) := st' in 0 <= r1 <= r0 /\ Z.gcd r0 r1 = Z.gcd a b) /\
      (euclid_passes (fst st') (snd st') < euclid_passes (fst st) (snd st))%nat
  | Ok (inr g) => g = Z.gcd a b
  | _ => False
  end.
Proof.
  destruct st as [r0 r1]; intros [Hr Hgcd].
  unfold gcd_body, mpz_mod.
  destruct (Z.eqb_spec r1 0) as [->|Hne]; cbn [negb bind fst snd].
  - rewrite Z.gcd_0_r, Z.abs_eq in Hgcd by lia. congruence.
  - rewrite Z.abs_eq by lia.
    pose proof (Z.mod_pos_bound r0 r1 ltac:(lia)) as Hmod.
    split; [|apply euclid_passes_decreases; lia].
    split; [lia|].
    rewrite <- Hgcd, (Z.gcd_comm r1), Z.gcd_mod by lia. apply Z.gcd_comm.
Qed.

(** [gcd] on non-negative values is the greatest common divisor. *)
Lemma gcd_spec a b : 0 <= a -> 0 <= b -> gcd a b = Ok (Z.gcd a b).
Proof.
  intros Ha Hb; unfold gcd.
  assert (Hmain : forall fuel r0 r1,
             0 <= r1 <= r0 -> Z.gcd r0 r1 = Z.gcd a b ->
             (euclid_passes r0 r1 <= fuel)%nat ->
             loop fuel gcd_body (r0, r1) = Ok (Z.gcd a b)).
  { intros fuel r0 r1 Hr Hg Hfuel.
    destruct (loop_total gcd_body
                (fun st => let '(r0, r1) := st in
                           0 <= r1 <= r0 /\ Z.gcd r0 r1 = Z.gcd a b)
                (fun g => g = Z.gcd a b)
                (fun st => euclid_passes (fst st) (snd st))
                (gcd_body_step a b) fuel (r0, r1))
      as (g & Hrun & ->); auto. }
  destruct (Z_le_gt_dec b a) as [Hle|Hgt].
  - apply Hmain; [lia|reflexivity|].
    etransitivity; [apply (euclid_passes_le a b (a * b)); lia|lia].
  - replace (bit_fuel (a * b) + 2)%nat with (S (S (bit_fuel (a * b)))) by lia.
    rewrite loop_S. unfold gcd_body at 1, mpz_mod.
    destruct (Z.eqb_spec b 0); [lia|]. cbn [negb bind].
    rewrite Z.abs_eq, Z.mod_small by lia.
    apply Hmain; [lia|apply Z.gcd_comm|].
    etransitivity; [apply (euclid_passes_le b a (a * b)); lia|lia].
Qed.

(** ** Block sizes *)

Lemma bit_length_nonneg z : 0 <= bit_length z.
Proof.
  unfold bit_length; destruct (z =? 0); [lia|].
  pose proof (Z.log2_nonneg z); lia.
Qed.

Lemma bit_length_half z : 0 < z -> bit_length (z / 2) = bit_length z - 1.
Proof.
  intros Hz; unfold bit_length.
  destruct (Z.eqb_spec z 0); [lia|].
  destruct (Z.eq_dec z 1) as [->|]; [reflexivity|].
  assert (Hhalf : 0 < z / 2) by (apply Z.div_str_pos; lia).
  destruct (Z.eqb_spec (z / 2) 0); [lia|].
  replace (z / 2) with (Z.shiftr z 1)
    by (rewrite Z.shiftr_div_pow2 by lia; reflexivity).
  rewrite Z.log2_shiftr by lia.
  pose proof (Z.log2_pos z ltac:(lia)). lia.
Qed.

Lemma bit_length_le_mono a b : 0 <= a <= b -> bit_length a <= bit_length b.
Proof.
  intros H; unfold bit_length.
  destruct (Z.eqb_spec a 0), (Z.eqb_spec b 0); try lia.
  - pose proof (Z.log2_nonneg b); lia.
  - pose proof (Z.log2_le_mono a b); lia.
Qed.

Lemma bit_length_pow2 z : 0 < z -> 2 ^ (bit_length z - 1) <= z.
Proof.
  intros Hz; unfold bit_length.
  destruct (Z.eqb_spec z 0); [lia|].
  replace (Z.log2 z + 1 - 1) with (Z.log2 z) by lia.
  apply Z.log2_spec; lia.
Qed.

Lemma wrap16_add_l a b : wrap16 (wrap16 a + b) = wrap16 (a + b).
Proof. unfold wrap16. now rewrite Z.add_mod_idemp_l by lia. Qed.

Lemma wrap16_range z : 0 <= wrap16 z < 2 ^ 16.
Proof. unfold wrap16; apply Z.mod_pos_bound; lia. Qed.

Lemma block_size_loop fuel modulus block_size :
  0 <= modulus -> 0 <= block_size < 2 ^ 16 ->
  (Z.to_nat (bit_length modulus) <= fuel)%nat ->
  loop fuel block_size_body (modulus, block_size)
    = Ok (wrap16 (block_size + bit_length modulus)).
Proof.
  revert modulus block_size.
  induction fuel as [|fuel IH]; intros modulus block_size Hm Hbs Hfuel;
    cbn [loop]; unfold block_size_body at 1;
    destruct (Z.eqb_spec modulus 0) as [->|Hne]; cbn [negb].
  - rewrite Z.add_0_r. unfold wrap16. now rewrite Z.mod_small.
  - pose proof (bit_length_half modulus ltac:(lia)).
    pose proof (bit_length_nonneg (modulus / 2)). lia.
  - rewrite Z.add_0_r. unfold wrap16. now rewrite Z.mod_small.
  - pose proof (bit_length_half modulus ltac:(lia)) as Hhalf.
    pose proof (bit_length_nonneg (modulus / 2)).
    rewrite IH.
    + rewrite wrap16_add_l, Hhalf.
      replace (block_size + 1 + (bit_length modulus - 1))
        with (block_size + bit_length modulus) by ring.
      reflexivity.
    + apply Z.div_pos; lia.
    + apply wrap16_range.
    + lia.
Qed.

(** The block size in closed form. *)
Lemma block_size_of_eq modulus :
  0 <= modulus ->
  block_size_of modulus = Ok (wrap16 (wrap16 (bit_length modulus) - 1) / 8).
Proof.
  intros Hm; unfold block_size_of.
  rewrite block_size_loop; [reflexivity|assumption|lia|].
  unfold bit_fuel, bit_length.
  destruct (Z.eqb_spec modulus 0); [lia|].
  rewrite Z.abs_eq by lia. pose proof (Z.log2_nonneg modulus). lia.
Qed.

(** A block of [block_size] bytes is below the modulus it comes from, even
    when the 16-bit counter has wrapped. *)
Lemma block_size_of_fits modulus block_size :
  0 < modulus -> block_size_of modulus = Ok block_size ->
  0 <= block_size /\ 8 * block_size <= bit_length modulus - 1 /\
  2 ^ (8 * block_size) <= modulus.
Proof.
  intros Hm; rewrite block_size_of_eq by lia; intros [= <-].
  pose proof (wrap16_range (wrap16 (bit_length modulus) - 1)) as Hr.
  pose proof (wrap16_range (bit_length modulus)) as Hr0.
  set (c := wrap16 (wrap16 (bit_length modulus) - 1)) in *.
  assert (Hc : c <= bit_length modulus - 1).
  { assert (Hpos : 1 <= bit_length modulus).
    { unfold bit_length. destruct (Z.eqb_spec modulus 0); [lia|].
      pose proof (Z.log2_nonneg modulus); lia. }
    assert (Hw : wrap16 (bit_length modulus) <= bit_length modulus)
      by (unfold wrap16; apply Z.mod_le; lia).
    subst c. destruct (Z.eq_dec (wrap16 (bit_length modulus)) 0) as [E|E].
    - rewrite E in *. change (wrap16 (0 - 1)) with 65535.
      assert (bit_length modulus <> 65535 /\ 65536 <= bit_length modulus \/ bit_length modulus < 65536) as [[_ ?]|Hlt] by lia; [lia|].
      unfold wrap16 in E. rewrite Z.mod_small in E by lia. lia.
    - unfold wrap16 at 1. rewrite Z.mod_small by lia. lia. }
  pose proof (Z.div_pos c 8 ltac:(lia) ltac:(lia)).
  pose proof (Z.mul_div_le c 8 ltac:(lia)).
  split; [assumption|]. split; [lia|].
  etransitivity; [|apply bit_length_pow2; assumption].
  apply Z.pow_le_mono_r; lia.
Qed.

(** When the bit length fits the 16-bit counter. *)
Lemma block_size_of_small modulus :
  0 < modulus -> Z.log2 modulus < 65535 ->
  block_size_of modulus = Ok ((bit_length modulus - 1) / 8).
Proof.
  intros Hm Hlog; rewrite block_size_of_eq by lia.
  assert (Hb : bit_length modulus = Z.log2 modulus + 1)
    by (unfold bit_length; destruct (Z.eqb_spec modulus 0); lia).
  pose proof (Z.log2_nonneg modulus).
  unfold wrap16. rewrite (Z.mod_small (bit_length modulus)) by lia.
  rewrite Z.mod_small by lia. reflexivity.
Qed.

Lemma ss_make_priv_Ok p q d pq :
  ss_make_priv p q = Ok (d, pq) ->
  pq = p * q /\
  exists lambda, ss_make_priv_lambda p q = Ok lambda /\
                 mod_inverse (ss_make_priv_n p q) lambda = Ok d.
Proof.
  unfold ss_make_priv; intros H.
  apply bind_Ok in H; destruct H as (lambda & Hl & H).
  apply bind_Ok in H; destruct H as (d' & Hd & [= -> <-]).
  eauto.
Qed.

Lemma sqrt_ppq_bounds p q :
  1 <= p -> 1 <= q -> 1 <= Z.sqrt (p * p * q) <= p * q.
Proof.
  intros Hp Hq; split.
  - change 1 with (Z.sqrt 1). apply Z.sqrt_le_mono. nia.
  - rewrite <- (Z.sqrt_square (p * q)) by nia.
    apply Z.sqrt_le_mono. nia.
Qed.

(** The two block sizes of a key, in order. *)
Lemma block_sizes_ordered p q :
  1 <= p -> 1 <= q -> Z.log2 (p * q) < 65535 ->
  exists block_size_enc block_size_dec,
    encrypt_block_size (p * p * q) = Ok block_size_enc /\
    decrypt_block_size (p * q) = Ok block_size_dec /\
    block_size_enc <= block_size_dec /\
    2 ^ (8 * block_size_enc) <= p * q.
Proof.
  intros Hp Hq Hsmall.
  pose proof (sqrt_ppq_bounds p q Hp Hq) as Hsqrt.
  assert (Hlog : Z.log2 (Z.sqrt (p * p * q)) < 65535)
    by (pose proof (Z.log2_le_mono (Z.sqrt (p * p * q)) (p * q)); lia).
  exists ((bit_length (Z.sqrt (p * p * q)) - 1) / 8),
         ((bit_length (p * q) - 1) / 8).
  unfold encrypt_block_size, decrypt_block_size, mpz_sqrt.
  destruct (Z.ltb_spec (p * p * q) 0); [nia|]. cbn [bind].
  pose proof (block_size_of_fits (Z.sqrt (p * p * q))) as Hfits.
  rewrite !block_size_of_small in * by lia.
  destruct (Hfits _ ltac:(lia) eq_refl) as (_ & _ & Hpow).
  repeat split; [|lia].
  apply Z.div_le_mono; [lia|].
  pose proof (bit_length_le_mono (Z.sqrt (p * p * q)) (p * q)). lia.
Qed.

(** C2, as amended.  For a key pair that key generation gives, whose [pq]
    has fewer than 65536 bits, the block size that encryption computes from
    the square root of [n] is at most the one decryption computes from
    [pq]. *)
Theorem encrypt_block_size_le_decrypt
  fuel total_bits iterations w p q n w' d pq :
  ss_make_pub fuel total_bits iterations w = Ok (p, q, n, w') ->
  ss_make_priv p q = Ok (d, pq) ->
  Z.log2 pq < 65535 ->
  exists block_size_enc block_size_dec,
    encrypt_block_size n = Ok block_size_enc /\
    decrypt_block_size pq = Ok block_size_dec /\
    block_size_enc <= block_size_dec.
Proof.
  intros Hpub Hpriv Hsmall.
  apply ss_make_pub_Ok in Hpub; destruct Hpub as ([Hp Hq] & _ & ->).
  apply ss_make_priv_Ok in Hpriv; destruct Hpriv as [-> _].
  destruct (block_sizes_ordered p q Hp Hq Hsmall)
    as (block_size_enc & block_size_dec & Henc & Hdec & Hle & _).
  eauto.
Qed.

Lemma keygen24_priv : ss_make_priv 11 65537 = Ok (158153, 720907).
Proof. vm_compute. reflexivity. Qed.

Lemma encrypt_block_size_le_decrypt_witness :
  ss_make_pub 5 24 1 keygen24_world = Ok (11, 65537, 7929977, keygen24_end) /\
  ss_make_priv 11 65537 = Ok (158153, 720907) /\
  Z.log2 720907 < 65535 /\
  exists block_size_enc block_size_dec,
    encrypt_block_size 7929977 = Ok block_size_enc /\
    decrypt_block_size 720907 = Ok block_size_dec /\
    block_size_enc <= block_size_dec.
Proof.
  split; [vm_compute; reflexivity|].
  split; [vm_compute; reflexivity|].
  split; [vm_compute; reflexivity|].
  apply (encrypt_block_size_le_decrypt
           5 24 1 keygen24_world 11 65537 7929977 keygen24_end 158153 720907).
  - vm_compute; reflexivity.
  - vm_compute; reflexivity.
  - vm_compute; reflexivity.
Defined.

(** C2 as it stands fails: key generation for 24 bits can give [p = 11] and
    [q = 65537], for which encryption works with blocks of 1 byte and
    decryption with blocks of 2. *)
Lemma block_sizes_differ_counterexample :
  ss_make_pub 5 24 1 keygen24_world = Ok (11, 65537, 7929977, keygen24_end) /\
  ss_make_priv 11 65537 = Ok (158153, 720907) /\
  encrypt_block_size 7929977 = Ok 1 /\
  decrypt_block_size 720907 = Ok 2 /\
  ~ same_block_size 7929977 720907.
Proof.
  split; [vm_compute; reflexivity|].
  split; [vm_compute; reflexivity|].
  split; [vm_compute; reflexivity|].
  split; [vm_compute; reflexivity|].
  intros (bs & Henc & Hdec).
  vm_compute in Henc, Hdec. congruence.
Qed.

(** ** Why decryption undoes encryption *)

Section Scheme.

Variables p q : Z.
Hypothesis prime_p : Z.prime p.
Hypothesis prime_q : Z.prime q.
Hypothesis distinct : p <> q.
Hypothesis accept_p : (q - 1) mod p <> 0.
Hypothesis accept_q : (p - 1) mod q <> 0.

Let p_ge_2 : 2 <= p := Z.prime_ge_2 p prime_p.
Let q_ge_2 : 2 <= q := Z.prime_ge_2 q prime_q.

(** Neither prime is 2: the other one would fail the test. *)
Lemma scheme_odd : 3 <= p /\ 3 <= q.
Proof.
  assert (Hother : forall a b, Z.prime a -> Z.prime b -> a <> b ->
                               (b - 1) mod a <> 0 -> a <> 2).
  { intros a b Ha Hb Hab Hacc ->.
    destruct Hb as [Hb1 Hb].
    assert (Hb2 : b mod 2 = 0) by (clear - Hacc Hb1; Z.to_euclidean_division_equations; lia).
    apply (Hb 2); [lia|]. apply Z.mod_divide; lia. }
  pose proof (Hother p q prime_p prime_q distinct accept_p).
  pose proof (Hother q p prime_q prime_p (not_eq_sym distinct) accept_q).
  lia.
Qed.

Lemma lambda_spec :
  exists lambda,
    ss_make_priv_lambda p q = Ok lambda /\ 1 < lambda /\
    (p - 1 | lambda) /\ (q - 1 | lambda) /\ (lambda | (p - 1) * (q - 1)).
Proof.
  destruct scheme_odd as [Hp Hq].
  unfold ss_make_priv_lambda. rewrite gcd_spec by lia. cbn [bind].
  set (g := Z.gcd (p - 1) (q - 1)).
  assert (Hg : 0 < g).
  { pose proof (Z.gcd_nonneg (p - 1) (q - 1)).
    assert (g <> 0) by (intros [E _]%Z.gcd_eq_0; lia). lia. }
  destruct (Z.gcd_divide_l (p - 1) (q - 1)) as [a Ha].
  destruct (Z.gcd_divide_r (p - 1) (q - 1)) as [b Hb].
  fold g in Ha, Hb.
  unfold mpz_divexact. destruct (Z.eqb_spec g 0); [lia|].
  eexists; split; [reflexivity|].
  assert (E : (p - 1) * (q - 1) / g = a * b * g).
  { rewrite Ha, Hb. replace (a * g * (b * g)) with (a * b * g * g) by ring.
    apply Z.div_mul; lia. }
  rewrite E. repeat split.
  - assert (0 < a) by nia. assert (0 < b) by nia.
    replace (a * b * g) with (a * g * b) by ring. rewrite <- Ha. nia.
  - exists b. rewrite Ha. ring.
  - exists a. rewrite Hb. ring.
  - exists g. rewrite Ha, Hb. ring.
Qed.

Lemma prime_not_divide_pred a : Z.prime a -> ~ (a | a - 1).
Proof.
  intros Ha Hdiv. pose proof (Z.prime_ge_2 a Ha).
  apply Z.divide_pos_le in Hdiv; lia.
Qed.

Lemma modulus_coprime_lambda lambda :
  (lambda | (p - 1) * (q - 1)) -> Z.gcd (ss_make_priv_n p q) lambda = 1.
Proof.
  intros Hdiv.
  assert (Hp : Z.coprime p ((p - 1) * (q - 1))).
  { apply Z.coprime_prime_l; [assumption|].
    intros [H|H]%Z.divide_prime_mul; [| |assumption].
    - now apply (prime_not_divide_pred p).
    - apply accept_p, Z.mod_divide; [lia|assumption]. }
  assert (Hq : Z.coprime q ((p - 1) * (q - 1))).
  { apply Z.coprime_prime_l; [assumption|].
    intros [H|H]%Z.divide_prime_mul; [| |assumption].
    - apply accept_q, Z.mod_divide; [lia|assumption].
    - now apply (prime_not_divide_pred q). }
  assert (Hn : Z.coprime (ss_make_priv_n p q) ((p - 1) * (q - 1)))
    by (unfold ss_make_priv_n; auto using Z.coprime_mul_l).
  pose proof (Z.gcd_nonneg (ss_make_priv_n p q) lambda).
  assert (H1 : (Z.gcd (ss_make_priv_n p q) lambda | 1)).
  { rewrite <- Hn. apply Z.gcd_greatest; [apply Z.gcd_divide_l|].
    etransitivity; [apply Z.gcd_divide_r|assumption]. }
  apply Z.divide_1_r in H1. lia.
Qed.

(** The private exponent undoes the public one modulo [p * q]. *)
Lemma private_key_spec :
  exists d,
    ss_make_priv p q = Ok (d, p * q) /\ 0 <= d /\
    forall m, 0 <= m < p * q ->
              (m ^ (ss_make_priv_n p q * d)) mod (p * q) = m.
Proof.
  destruct scheme_odd as [Hp3 Hq3].
  destruct lambda_spec as (lambda & Hlambda & Hl1 & Hlp & Hlq & Hdiv).
  pose proof (modulus_coprime_lambda lambda Hdiv) as Hcoprime.
  set (n := ss_make_priv_n p q) in *.
  assert (Hn : 0 <= n) by (unfold n, ss_make_priv_n; nia).
  destruct (mod_inverse_coprime n lambda Hn Hl1 Hcoprime)
    as (d & Hd & Hd_range & Hnd).
  exists d. unfold ss_make_priv. fold n. rewrite Hlambda; cbn [bind].
  rewrite Hd; cbn [bind]. split; [reflexivity|]. split; [lia|].
  intros m Hm.
  assert (Hcycle : forall r, Z.prime r -> (r - 1 | lambda) ->
                             (r | m ^ (n * d) - m)).
  { intros r Hr [c Hc].
    pose proof (Z.prime_ge_2 r Hr).
    assert (Hk : n * d = 1 + (n * d / lambda) * c * (r - 1)).
    { rewrite (Z.div_mod (n * d) lambda) at 1 by lia. rewrite Hnd, Hc. ring. }
    assert (0 <= n * d / lambda) by (apply Z.div_pos; nia).
    assert (0 <= c) by nia.
    set (k := n * d / lambda * c) in *. assert (0 <= k) by nia.
    apply Z.mod_divide; [lia|]. apply Z.cong_iff_0.
    rewrite Hk, Z.pow_add_r, Z.pow_1_r, (Z.mul_comm k), Z.pow_mul_r by nia.
    destruct (Z.eq_dec (m mod r) 0) as [E|E].
    - rewrite Z.mul_mod, E by lia. apply Z.mod_0_l; lia.
    - rewrite Z.mul_mod, <- Z.mod_pow_l, Z.fermat_nz, Z.pow_1_l by (assumption || lia).
      rewrite (Z.mod_1_l r), Z.mul_1_r, Z.mod_mod by lia. reflexivity. }
  pose proof (Hcycle p prime_p Hlp) as [a Ha].
  pose proof (Hcycle q prime_q Hlq) as Hq.
  rewrite Ha, Z.mul_comm in Hq. apply Z.gauss in Hq.
  - destruct Hq as [b ->].
    rewrite <- (Z.mod_small m (p * q)) at 2 by lia.
    apply Z.cong_iff_0. replace (m ^ (n * d) - m) with (b * (p * q)) by lia.
    apply Z.mod_mul; nia.
  - apply Z.coprime_prime_l; [assumption|].
    intros H%Z.divide_prime_prime; auto.
Qed.

(** Decrypting what was encrypted gives the block back. *)
Lemma ss_decrypt_encrypt :
  exists d,
    ss_make_priv p q = Ok (d, p * q) /\
    forall m, 0 <= m < p * q ->
              exists c, ss_encrypt m (p * p * q) = Ok c /\
                        ss_decrypt c d (p * q) = Ok m.
Proof.
  destruct private_key_spec as (d & Hpriv & Hd & Hcorrect).
  exists d; split; [assumption|]. intros m Hm.
  assert (Hn : ss_make_priv_n p q = p * p * q)
    by (unfold ss_make_priv_n; ring).
  rewrite Hn in Hcorrect.
  assert (0 < p * q) by nia. assert (0 < p * p * q) by nia.
  unfold ss_encrypt, ss_decrypt, mpz_powm.
  destruct (Z.eqb_spec (p * p * q) 0); [lia|].
  destruct (Z.eqb_spec (p * q) 0); [lia|].
  destruct (Z.ltb_spec (p * p * q) 0); [lia|].
  destruct (Z.ltb_spec d 0); [lia|].
  eexists; split; [reflexivity|]. f_equal.
  rewrite !Z.abs_eq, !Zpow_mod_correct by lia.
  rewrite <- Z.mod_pow_l, Z.mod_mod_divide, Z.mod_pow_l, <- Z.pow_mul_r
    by (lia || (exists p; ring)).
  apply Hcorrect; assumption.
Qed.

End Scheme.

(** ** Bytes and integers *)

Lemma byte_to_Z_range b : 0 <= byte_to_Z b < 256.
Proof.
  unfold byte_to_Z. pose proof (Byte.to_N_bounded b). lia.
Qed.

Lemma byte_of_to_Z b hi : byte_of_Z (hi * 256 + byte_to_Z b) = b.
Proof.
  pose proof (byte_to_Z_range b).
  unfold byte_of_Z.
  rewrite Z.add_comm, Z.mod_add, Z.mod_small by lia.
  unfold byte_to_Z. now rewrite N2Z.id, Byte.of_to_N.
Qed.

Lemma byte_to_Z_xff : byte_to_Z xff = 255.
Proof. reflexivity. Qed.

Lemma byte_to_Z_x00 : byte_to_Z x00 = 0.
Proof. reflexivity. Qed.

Lemma mpz_import_acc data acc :
  fold_left (fun acc b => acc * 256 + byte_to_Z b) data acc
  = acc * 256 ^ Z.of_nat (length data) + mpz_import data.
Proof.
  unfold mpz_import. revert acc.
  induction data as [|b data IH]; intros acc.
  - cbn [fold_left length]. change (256 ^ Z.of_nat 0) with 1. ring.
  - cbn [fold_left length]. rewrite IH, (IH (0 * 256 + byte_to_Z b)).
    rewrite Nat2Z.inj_succ, Z.pow_succ_r by lia. ring.
Qed.

Lemma mpz_import_cons b data :
  mpz_import (b :: data)
  = byte_to_Z b * 256 ^ Z.of_nat (length data) + mpz_import data.
Proof.
  unfold mpz_import at 1. cbn [fold_left]. rewrite mpz_import_acc.
  f_equal.
Qed.

Lemma mpz_import_range data :
  0 <= mpz_import data < 256 ^ Z.of_nat (length data).
Proof.
  induction data as [|b data IH].
  - change (mpz_import []) with 0. change (256 ^ Z.of_nat (length (@nil byte))) with 1. lia.
  - rewrite mpz_import_cons. cbn [length].
    rewrite Nat2Z.inj_succ, Z.pow_succ_r by lia.
    pose proof (byte_to_Z_range b). nia.
Qed.

Lemma be_bytes_import data hi :
  be_bytes (length data) (hi * 256 ^ Z.of_nat (length data) + mpz_import data)
  = data.
Proof.
  revert hi. induction data as [|b data IH]; intros hi; [reflexivity|].
  cbn [length be_bytes]. rewrite mpz_import_cons.
  pose proof (mpz_import_range data) as Hr.
  set (k := Z.of_nat (length data)) in *.
  assert (Hk : 0 < 256 ^ k) by (apply Z.pow_pos_nonneg; lia).
  rewrite Nat2Z.inj_succ. fold k. rewrite Z.pow_succ_r by lia.
  replace (hi * (256 * 256 ^ k) + (byte_to_Z b * 256 ^ k + mpz_import data))
    with ((hi * 256 + byte_to_Z b) * 256 ^ k + mpz_import data) by ring.
  f_equal.
  - rewrite Z.div_add_l, Z.div_small, Z.add_0_r by lia.
    apply byte_of_to_Z.
  - apply IH.
Qed.

(** Exporting an integer imported from bytes gives the bytes back, when
    the first byte is not zero. *)
Lemma mpz_export_import b data :
  byte_to_Z b <> 0 -> mpz_export (mpz_import (b :: data)) = b :: data.
Proof.
  intros Hb. pose proof (byte_to_Z_range b) as Hrange.
  pose proof (mpz_import_range data) as Hr.
  unfold mpz_export. rewrite mpz_import_cons.
  set (k := Z.of_nat (length data)) in *.
  assert (Hk : 0 < 256 ^ k) by (apply Z.pow_pos_nonneg; lia).
  set (v := byte_to_Z b * 256 ^ k + mpz_import data).
  assert (Hlow : 256 ^ k <= v) by (unfold v; nia).
  assert (Hhigh : v < 256 ^ (k + 1))
    by (unfold v; rewrite Z.pow_add_r, Z.pow_1_r by lia; nia).
  rewrite Z.abs_eq by lia.
  destruct (Z.eqb_spec v 0); [lia|].
  assert (Hlog : Z.log2 v / 8 = k).
  { change 256 with (2 ^ 8) in Hlow, Hhigh.
    rewrite <- Z.pow_mul_r in Hlow, Hhigh by lia.
    apply Z.log2_le_pow2 in Hlow; [|lia].
    apply Z.log2_lt_pow2 in Hhigh; [|lia].
    symmetry; apply Z.div_unique with (r := Z.log2 v - 8 * k); lia. }
  rewrite Hlog. replace (Z.to_nat (k + 1)) with (S (length data)) by lia.
  change (S (length data)) with (length (b :: data)).
  unfold v, k. rewrite <- mpz_import_cons.
  apply (be_bytes_import (b :: data) 0).
Qed.

Lemma frame_length block_size data :
  1 <= block_size -> Z.of_nat (length data) <= block_size - 1 ->
  Z.of_nat (length (frame block_size data)) = block_size.
Proof.
  intros Hbs Hlen; unfold frame; cbn [length].
  rewrite length_app, repeat_length. lia.
Qed.

(** The integer of a framed block has the sentinel as its top byte. *)
Lemma frame_bounds block_size data :
  1 <= block_size -> Z.of_nat (length data) <= block_size - 1 ->
  let m := mpz_import (frame block_size data) in
  255 * 2 ^ (8 * (block_size - 1)) <= m < 2 ^ (8 * block_size) /\
  m <> 0 /\
  mpz_export m = frame block_size data.
Proof.
  intros Hbs Hlen m.
  assert (Hexp : mpz_export m = frame block_size data)
    by (apply mpz_export_import; rewrite byte_to_Z_xff; lia).
  pose proof (frame_length block_size data Hbs Hlen) as Hfl.
  assert (Hm : 255 * 256 ^ (block_size - 1) <= m
               < 256 * 256 ^ (block_size - 1)).
  { unfold m, frame in *. rewrite mpz_import_cons, byte_to_Z_xff.
    cbn [length] in Hfl.
    set (payload := data ++ repeat x00 _) in *.
    pose proof (mpz_import_range payload) as Hr.
    replace (Z.of_nat (length payload)) with (block_size - 1) in * by lia.
    lia. }
  assert (Hpow : 2 ^ (8 * (block_size - 1)) = 256 ^ (block_size - 1))
    by (change 256 with (2 ^ 8); rewrite <- Z.pow_mul_r by lia; reflexivity).
  assert (Hpow' : 2 ^ (8 * block_size) = 256 * 256 ^ (block_size - 1)).
  { replace (8 * block_size) with (8 + 8 * (block_size - 1)) by ring.
    rewrite Z.pow_add_r, Hpow by lia. reflexivity. }
  rewrite Hpow, Hpow'.
  assert (0 < 256 ^ (block_size - 1)) by (apply Z.pow_pos_nonneg; lia).
  repeat split; try lia. assumption.
Qed.

(** ** ss_encrypt_file *)

Lemma reads_within_bounds fuel nmemb infile :
  Forall (fun data => (0 < length data <= nmemb)%nat)
         (reads_within fuel nmemb infile).
Proof.
  revert infile; induction fuel as [|fuel IH]; intros infile; cbn [reads_within];
    [constructor|].
  destruct (firstn nmemb infile) as [|b data] eqn:E; constructor; [|apply IH].
  rewrite <- E, length_firstn. pose proof (f_equal (@length byte) E) as Hl.
  rewrite length_firstn in Hl. cbn [length] in Hl. lia.
Qed.

Lemma reads_within_concat fuel nmemb infile :
  (0 < nmemb)%nat -> (length infile <= fuel)%nat ->
  concat (reads_within fuel nmemb infile) = infile.
Proof.
  intros Hn; revert infile; induction fuel as [|fuel IH]; intros infile Hfuel;
    cbn [reads_within].
  - destruct infile; [reflexivity|cbn [length] in Hfuel; lia].
  - destruct (firstn nmemb infile) as [|b data] eqn:E.
    + destruct infile; [reflexivity|].
      destruct nmemb; [lia|discriminate].
    + cbn [concat]. rewrite IH, <- E; [apply firstn_skipn|].
      rewrite length_skipn.
      destruct infile; [rewrite firstn_nil in E; discriminate|].
      cbn [length] in *. lia.
Qed.

Lemma ss_encrypt_Ok plaintext modulus_n :
  0 < modulus_n ->
  ss_encrypt plaintext modulus_n
    = Ok (Zpow_mod plaintext modulus_n modulus_n).
Proof.
  intros Hn; unfold ss_encrypt, mpz_powm.
  destruct (Z.eqb_spec modulus_n 0); [lia|].
  destruct (Z.ltb_spec modulus_n 0); [lia|].
  now rewrite Z.abs_eq by lia.
Qed.

(** The loop of [ss_encrypt_file] frames and encrypts each read in turn. *)
Lemma ss_encrypt_file_loop block_size modulus_n fuel infile outfile blocks :
  1 <= block_size -> 0 < modulus_n -> (length infile <= fuel)%nat ->
  let ms := map (fun data => mpz_import (frame block_size data))
                (reads_within fuel (Z.to_nat (block_size - 1)) infile) in
  exists rest,
    loop fuel (ss_encrypt_file_body block_size modulus_n)
         (mkEnc infile outfile blocks)
    = Ok (mkEnc rest
                (outfile ++ map (fun m => Zpow_mod m modulus_n modulus_n) ms)
                (blocks ++ ms)).
Proof.
  intros Hbs Hn. revert infile outfile blocks.
  induction fuel as [|fuel IH]; intros infile outfile blocks Hfuel.
  - destruct infile; [|cbn [length] in Hfuel; lia].
    exists []. cbn [loop reads_within map]. unfold ss_encrypt_file_body.
    destruct (Z.eqb_spec block_size 0); [lia|].
    unfold fread. rewrite firstn_nil. cbn [length Nat.eqb app].
    now rewrite !app_nil_r.
  - rewrite loop_S. cbn [reads_within]. unfold ss_encrypt_file_body at 1.
    destruct (Z.eqb_spec block_size 0); [lia|].
    unfold fread. cbn [enc_infile enc_outfile enc_blocks].
    destruct (firstn (Z.to_nat (block_size - 1)) infile) as [|b data] eqn:E.
    + exists infile. cbn [length Nat.eqb map]. now rewrite !app_nil_r.
    + cbn [length Nat.eqb]. rewrite ss_encrypt_Ok by assumption. cbn [bind].
      destruct (IH (skipn (Z.to_nat (block_size - 1)) infile)
                   (outfile ++ [Zpow_mod (mpz_import (xff :: (b :: data) ++ repeat x00 (Z.to_nat (block_size - 1) - S (length data)))) modulus_n modulus_n])
                   (blocks ++ [mpz_import (xff :: (b :: data) ++ repeat x00 (Z.to_nat (block_size - 1) - S (length data)))]))
        as (rest & Hrest).
      { rewrite length_skipn.
        pose proof (f_equal (@length byte) E) as Hl.
        rewrite length_firstn in Hl. cbn [length] in Hl. lia. }
      exists rest. rewrite Hrest. cbn [map]. unfold frame at 3 5.
      cbn [length]. now rewrite <- !app_assoc.
Qed.

(** [ss_encrypt_file] in closed form. *)
Lemma ss_encrypt_file_eq infile modulus_n block_size :
  encrypt_block_size modulus_n = Ok block_size ->
  1 <= block_size -> modulus_n <> 0 ->
  ss_encrypt_file infile modulus_n
  = Ok (map (fun block => Zpow_mod (mpz_import block) modulus_n modulus_n)
            (map (frame block_size)
                 (reads (Z.to_nat (block_size - 1)) infile))).
Proof.
  intros Hsize Hbs Hn.
  assert (Hpos : 0 < modulus_n).
  { unfold encrypt_block_size, mpz_sqrt in Hsize.
    destruct (Z.ltb_spec modulus_n 0); [discriminate|lia]. }
  unfold ss_encrypt_file, ss_encrypt_file_run. rewrite Hsize; cbn [bind].
  destruct (ss_encrypt_file_loop block_size modulus_n (length infile)
              infile [] [] Hbs Hpos (le_n _)) as (rest & ->).
  cbn [bind enc_outfile app]. unfold reads.
  rewrite !map_map. reflexivity.
Qed.

(** C8.  With a block size of at least 1 and a modulus other than 0,
    [ss_encrypt_file] raises no error; it cuts the input into reads of up to
    [block_size - 1] bytes, stops at the first read that gives nothing (so
    an empty input gives no token), and for every read, short or not, writes
    the encryption of a block of [block_size] bytes: 0xFF, the bytes read,
    and zeros up to the end. *)
Theorem ss_encrypt_file_frames infile modulus_n block_size :
  encrypt_block_size modulus_n = Ok block_size ->
  1 <= block_size -> modulus_n <> 0 ->
  let nmemb := Z.to_nat (block_size - 1) in
  let blocks := map (frame block_size) (reads nmemb infile) in
  ss_encrypt_file infile modulus_n
    = Ok (map (fun block => Zpow_mod (mpz_import block) modulus_n modulus_n)
              blocks) /\
  ss_encrypt_file [] modulus_n = Ok [] /\
  Forall (fun data => (0 < length data <= nmemb)%nat) (reads nmemb infile) /\
  ((0 < nmemb)%nat -> concat (reads nmemb infile) = infile) /\
  Forall (fun block =>
            Z.of_nat (length block) = block_size /\
            exists data,
              block = xff :: data ++ repeat x00 (nmemb - length data))
         blocks.
Proof.
  intros Hsize Hbs Hn nmemb blocks.
  pose proof (reads_within_bounds (length infile) nmemb infile) as Hreads.
  fold (reads nmemb infile) in Hreads.
  split; [now apply ss_encrypt_file_eq|].
  split; [now rewrite (ss_encrypt_file_eq [] modulus_n block_size)|].
  split; [assumption|]. split.
  - intros Hnmemb; apply reads_within_concat; [assumption|apply le_n].
  - unfold blocks. apply Forall_map.
    revert Hreads; apply Forall_impl; intros data Hdata.
    split; [apply frame_length; lia|]. exists data; reflexivity.
Qed.

Lemma ss_encrypt_file_frames_witness :
  encrypt_block_size 281496452005891 = Ok 3 /\
  1 <= 3 /\ 281496452005891 <> 0 /\
  ss_encrypt_file ["H"%byte; "I"%byte; "!"%byte] 281496452005891
    = Ok [194494220841517; 177028338635453] /\
  reads 2 ["H"%byte; "I"%byte; "!"%byte] = [["H"%byte; "I"%byte]; ["!"%byte]] /\
  map (frame 3) (reads 2 ["H"%byte; "I"%byte; "!"%byte])
    = [[xff; "H"%byte; "I"%byte]; [xff; "!"%byte; x00]].
Proof.
  split; [vm_compute; reflexivity|]. split; [lia|]. split; [lia|].
  split; [|split; vm_compute; reflexivity].
  etransitivity;
    [apply (ss_encrypt_file_frames ["H"%byte; "I"%byte; "!"%byte]
              281496452005891 3); [vm_compute; reflexivity|lia|lia]|].
  vm_compute; reflexivity.
Defined.

(** C10.  Every block integer that [ss_encrypt_file] forms lies between
    [0xFF * 2^(8 * (block_size - 1))] and [2^(8 * block_size)], is not zero,
    and is exported as exactly [block_size] bytes, the first one 0xFF. *)
Theorem ss_encrypt_file_block_integers infile modulus_n st :
  ss_encrypt_file_run infile modulus_n = Ok st ->
  exists block_size,
    encrypt_block_size modulus_n = Ok block_size /\
    Forall (framed_integer block_size) (enc_blocks st).
Proof.
  unfold ss_encrypt_file_run; intros Hrun.
  apply bind_Ok in Hrun; destruct Hrun as (block_size & Hsize & Hloop).
  exists block_size; split; [assumption|].
  refine (loop_partial (ss_encrypt_file_body block_size modulus_n)
            (fun st => Forall (framed_integer block_size) (enc_blocks st))
            (fun st => Forall (framed_integer block_size) (enc_blocks st))
            _ (length infile) (mkEnc infile [] []) st (Forall_nil _) Hloop).
  clear; intros st Hst; unfold ss_encrypt_file_body, fread.
  destruct (Z.eqb_spec block_size 0) as [|Hbs]; [trivial|].
  set (nmemb := Z.to_nat (block_size - 1)).
  destruct (length (firstn nmemb (enc_infile st)) =? 0)%nat eqn:Hread;
    [assumption|].
  destruct (ss_encrypt _ _); cbn [bind]; trivial.
  cbn [enc_blocks]. apply Forall_app; split; [assumption|].
  constructor; [|constructor].
  apply Nat.eqb_neq in Hread.
  pose proof (firstn_le_length nmemb (enc_infile st)) as Hle.
  set (data := firstn nmemb (enc_infile st)) in *.
  assert (Hbs1 : 1 <= block_size) by lia.
  assert (Hlen : Z.of_nat (length data) <= block_size - 1) by lia.
  destruct (frame_bounds block_size data Hbs1 Hlen) as (Hb & Hnz & Hexp).
  fold nmemb in Hb, Hnz, Hexp. unfold frame in Hb, Hnz, Hexp. fold nmemb in Hb, Hnz, Hexp.
  repeat split; try assumption; try apply Hb.
  - rewrite Hexp. apply (frame_length block_size data Hbs1 Hlen).
  - rewrite Hexp. eexists; reflexivity.
Qed.

Lemma ss_encrypt_file_block_integers_witness :
  ss_encrypt_file_run ["H"%byte] 281496452005891
    = Ok (mkEnc [] [213879367758236] [16730112]) /\
  exists block_size,
    encrypt_block_size 281496452005891 = Ok block_size /\
    Forall (framed_integer block_size) [16730112].
Proof.
  split; [vm_compute; reflexivity|].
  apply (ss_encrypt_file_block_integers ["H"%byte] 281496452005891
           (mkEnc [] [213879367758236] [16730112])).
  vm_compute; reflexivity.
Defined.

(** ** ss_decrypt_file *)

Lemma ss_decrypt_file_more_fuel fuel fuel' infile d pq out :
  (fuel <= fuel')%nat ->
  ss_decrypt_file fuel infile d pq = Ok out ->
  ss_decrypt_file fuel' infile d pq = Ok out.
Proof.
  unfold ss_decrypt_file; intros Hle.
  destruct (decrypt_block_size pq); cbn [bind]; try discriminate.
  now apply loop_more_fuel.
Qed.

(** The loop of [ss_decrypt_file] on the tokens [ss_encrypt_file] wrote:
    every token gives back the payload of its block. *)
Lemma ss_decrypt_file_loop n d pq block_size_enc block_size_dec :
  (forall m, 0 <= m < pq ->
             exists c, ss_encrypt m n = Ok c /\ ss_decrypt c d pq = Ok m) ->
  0 < n -> 1 <= block_size_enc <= block_size_dec ->
  2 ^ (8 * block_size_enc) <= pq ->
  forall chunks fuel ciphertext outfile,
    Forall (fun data => Z.of_nat (length data) <= block_size_enc - 1) chunks ->
    (length chunks <= fuel)%nat ->
    loop fuel (ss_decrypt_file_body block_size_dec d pq)
         (mkDec (map Hex (map (fun block => Zpow_mod (mpz_import block) n n)
                              (map (frame block_size_enc) chunks)))
                ciphertext outfile)
    = Ok (outfile ++ concat (map (padded block_size_enc) chunks)).
Proof.
  intros Hkey Hn Hbs Hfit chunks.
  induction chunks as [|data chunks IH];
    intros fuel ciphertext outfile Hchunks Hfuel.
  - destruct fuel; cbn; now rewrite app_nil_r.
  - destruct fuel as [|fuel]; [cbn [length] in Hfuel; lia|].
    inversion Hchunks as [|? ? Hdata Hchunks']; subst.
    rewrite loop_S. cbn [map]. unfold ss_decrypt_file_body at 1.
    cbn [dec_infile dec_ciphertext dec_outfile gmp_fscanf_Zx].
    change (1 =? -1) with false; cbv iota.
    destruct (frame_bounds block_size_enc data) as (Hb & Hnz & Hexp);
      [lia|assumption|].
    set (m := mpz_import (frame block_size_enc data)) in *.
    destruct (Hkey m) as (c & Hc & Hm); [lia|].
    rewrite ss_encrypt_Ok in Hc by assumption. injection Hc as <-.
    rewrite Hm; cbn [bind]. rewrite Hexp.
    rewrite (frame_length block_size_enc data) by lia.
    destruct (Z.ltb_spec block_size_dec block_size_enc); [lia|].
    destruct (Z.eqb_spec block_size_enc 0); [lia|].
    rewrite IH; [|assumption|cbn [length] in Hfuel; lia].
    cbn [map concat]. unfold frame at 1. cbn [tl]. fold (padded block_size_enc data).
    now rewrite app_assoc.
Qed.

Lemma reads_within_nil fuel nmemb : reads_within fuel nmemb [] = [].
Proof. destruct fuel; cbn [reads_within]; [|rewrite firstn_nil]; reflexivity. Qed.

(** An input shorter than a read is one read, or none when it is empty. *)
Lemma reads_short nmemb infile :
  (length infile <= nmemb)%nat ->
  reads nmemb infile = match infile with [] => [] | _ => [infile] end.
Proof.
  intros Hlen; unfold reads. destruct infile as [|b infile]; [reflexivity|].
  cbn [length reads_within].
  rewrite firstn_all2, skipn_all2, reads_within_nil by assumption.
  reflexivity.
Qed.

(** Decrypting what [ss_encrypt_file] wrote gives the input back with the
    last read padded with zeros to [block_size - 1] bytes. *)
Lemma ss_file_round_trip p q block_size infile :
  Z.prime p -> Z.prime q -> p <> q ->
  (q - 1) mod p <> 0 -> (p - 1) mod q <> 0 ->
  Z.log2 (p * q) < 65535 ->
  encrypt_block_size (p * p * q) = Ok block_size -> 1 <= block_size ->
  exists d tokens,
    ss_make_priv p q = Ok (d, p * q) /\
    ss_encrypt_file infile (p * p * q) = Ok tokens /\
    forall fuel,
      (length tokens <= fuel)%nat ->
      ss_decrypt_file fuel (map Hex tokens) d (p * q)
      = Ok (concat (map (padded block_size)
                        (reads (Z.to_nat (block_size - 1)) infile))).
Proof.
  intros Hp Hq Hne Hap Haq Hsmall Hsize Hbs.
  pose proof (Z.prime_ge_2 p Hp). pose proof (Z.prime_ge_2 q Hq).
  destruct (ss_decrypt_encrypt p q Hp Hq Hne Hap Haq) as (d & Hpriv & Hkey).
  destruct (block_sizes_ordered p q) as (be & bd & Hbe & Hbd & Hle & Hfit);
    try lia.
  rewrite Hsize in Hbe; injection Hbe as <-.
  assert (Henc := ss_encrypt_file_eq infile (p * p * q) block_size Hsize Hbs
                    ltac:(nia)).
  pose proof (reads_within_bounds (length infile)
                (Z.to_nat (block_size - 1)) infile) as Hreads.
  fold (reads (Z.to_nat (block_size - 1)) infile) in Hreads.
  eexists d, _; split; [assumption|]. split; [exact Henc|].
  intros fuel Hfuel. unfold ss_decrypt_file. rewrite Hbd; cbn [bind].
  rewrite !length_map in Hfuel.
  apply (ss_decrypt_file_loop (p * p * q) d (p * q) block_size bd Hkey
           ltac:(nia) ltac:(lia) Hfit
           (reads (Z.to_nat (block_size - 1)) infile) fuel 0 []);
    [|assumption].
  revert Hreads; apply Forall_impl; intros; lia.
Qed.

(** C1, as amended.  For a key pair that key generation gives from two
    different primes, with fewer than 65536 bits in [pq], and a plaintext of
    fewer than [block_size - 1] bytes: decrypting the encryption gives the
    plaintext followed by zeros up to [block_size - 1] bytes, and nothing
    for the empty plaintext. *)
Theorem round_trip_zero_padded
  fuel total_bits iterations w p q n w' block_size plaintext :
  ss_make_pub fuel total_bits iterations w = Ok (p, q, n, w') ->
  Z.prime p -> Z.prime q -> p <> q ->
  Z.log2 (p * q) < 65535 ->
  encrypt_block_size n = Ok block_size ->
  Z.of_nat (length plaintext) < block_size - 1 ->
  exists d pq tokens,
    ss_make_priv p q = Ok (d, pq) /\
    ss_encrypt_file plaintext n = Ok tokens /\
    forall fuel',
      (length tokens <= fuel')%nat ->
      ss_decrypt_file fuel' (map Hex tokens) d pq
      = Ok match plaintext with
           | [] => []
           | _ => padded block_size plaintext
           end.
Proof.
  intros Hpub Hp Hq Hne Hsmall Hsize Hlen.
  apply ss_make_pub_Ok in Hpub; destruct Hpub as (_ & [Hap Haq] & ->).
  destruct (ss_file_round_trip p q block_size plaintext)
    as (d & tokens & Hpriv & Henc & Hdec); try assumption; [lia|].
  exists d, (p * q), tokens. split; [assumption|]. split; [assumption|].
  intros fuel' Hfuel. rewrite Hdec by assumption.
  rewrite reads_short by lia.
  destruct plaintext; cbn [map concat]; [reflexivity|].
  now rewrite app_nil_r.
Qed.

(** ** A run with a key of 50 bits *)

Lemma no_divisor_from_sound count d p :
  0 < d -> no_divisor_from count d p = true ->
  forall n, d <= n < d + Z.of_nat count -> ~ (n | p).
Proof.
  revert d; induction count as [|count IH]; intros d Hd Hcheck n Hn; [lia|].
  cbn [no_divisor_from] in Hcheck.
  apply andb_prop in Hcheck; destruct Hcheck as [Hhere Hrest].
  destruct (Z.eq_dec n d) as [->|Hne].
  - intros Hdiv. apply Z.mod_divide in Hdiv; [|lia].
    rewrite Hdiv in Hhere. discriminate.
  - apply (IH (d + 1)); [lia|assumption|lia].
Qed.

Lemma prime_by_trial_sound p : prime_by_trial p = true -> Z.prime p.
Proof.
  unfold prime_by_trial; intros [H1 Hcheck]%andb_prop.
  apply Z.ltb_lt in H1. split; [assumption|].
  intros n Hn.
  apply (no_divisor_from_sound (Z.to_nat (p - 2)) 2 p); [lia|assumption|lia].
Qed.

Lemma keygen50_run :
  ss_make_pub 5 50 1 keygen50_world
    = Ok (65537, 65539, 281496452005891, keygen50_end) /\
  ss_make_priv 65537 65539 = Ok (1431677611, 4295229443) /\
  encrypt_block_size 281496452005891 = Ok 3 /\
  decrypt_block_size 4295229443 = Ok 4.
Proof.
  split; [vm_compute; reflexivity|]. split; [vm_compute; reflexivity|].
  split; vm_compute; reflexivity.
Qed.

Lemma keygen50_primes : Z.prime 65537 /\ Z.prime 65539.
Proof. split; apply prime_by_trial_sound; vm_compute; reflexivity. Qed.

Lemma round_trip_zero_padded_witness :
  ss_make_pub 5 50 1 keygen50_world
    = Ok (65537, 65539, 281496452005891, keygen50_end) /\
  Z.prime 65537 /\ Z.prime 65539 /\ 65537 <> 65539 /\
  Z.log2 (65537 * 65539) < 65535 /\
  encrypt_block_size 281496452005891 = Ok 3 /\
  Z.of_nat (length ["H"%byte]) < 3 - 1 /\
  exists d pq tokens,
    ss_make_priv 65537 65539 = Ok (d, pq) /\
    ss_encrypt_file ["H"%byte] 281496452005891 = Ok tokens /\
    forall fuel',
      (length tokens <= fuel')%nat ->
      ss_decrypt_file fuel' (map Hex tokens) d pq
      = Ok (padded 3 ["H"%byte]).
Proof.
  split; [vm_compute; reflexivity|].
  split; [apply prime_by_trial_sound; vm_compute; reflexivity|].
  split; [apply prime_by_trial_sound; vm_compute; reflexivity|].
  split; [lia|]. split; [vm_compute; reflexivity|].
  split; [vm_compute; reflexivity|]. split; [vm_compute; reflexivity|].
  apply (round_trip_zero_padded 5 50 1 keygen50_world 65537 65539
           281496452005891 keygen50_end 3 ["H"%byte]).
  - vm_compute; reflexivity.
  - apply prime_by_trial_sound; vm_compute; reflexivity.
  - apply prime_by_trial_sound; vm_compute; reflexivity.
  - lia.
  - vm_compute; reflexivity.
  - vm_compute; reflexivity.
  - vm_compute; reflexivity.
Defined.

Lemma round_trip_claim_tokens n d pq plaintext tokens :
  ss_encrypt_file plaintext n = Ok tokens ->
  round_trip_claim n d pq plaintext ->
  exists fuel, ss_decrypt_file fuel (map Hex tokens) d pq = Ok plaintext.
Proof.
  intros Henc (tokens' & fuel & Henc' & Hback).
  rewrite Henc in Henc'. injection Henc' as <-. eauto.
Qed.

(** C1 as it stands fails: with the key above, whose block size is 3, the
    one-byte plaintext "H" comes back as "H" followed by a zero byte. *)
Lemma round_trip_counterexample :
  ss_make_pub 5 50 1 keygen50_world
    = Ok (65537, 65539, 281496452005891, keygen50_end) /\
  ss_make_priv 65537 65539 = Ok (1431677611, 4295229443) /\
  encrypt_block_size 281496452005891 = Ok 3 /\
  Z.of_nat (length ["H"%byte]) < 3 - 1 /\
  ss_encrypt_file ["H"%byte] 281496452005891 = Ok [213879367758236] /\
  ss_decrypt_file 1 (map Hex [213879367758236]) 1431677611 4295229443
    = Ok ["H"%byte; x00] /\
  ~ round_trip_claim 281496452005891 1431677611 4295229443 ["H"%byte].
Proof.
  assert (Hdec : ss_decrypt_file 1 (map Hex [213879367758236])
                   1431677611 4295229443
                 = Ok ["H"%byte; x00]) by (vm_compute; reflexivity).
  assert (Hgas : ss_decrypt_file 0 (map Hex [213879367758236])
                   1431677611 4295229443 = Gas) by (vm_compute; reflexivity).
  assert (Henc : ss_encrypt_file ["H"%byte] 281496452005891
                 = Ok [213879367758236]) by (vm_compute; reflexivity).
  split; [vm_compute; reflexivity|]. split; [vm_compute; reflexivity|].
  split; [vm_compute; reflexivity|]. split; [vm_compute; reflexivity|].
  split; [exact Henc|]. split; [exact Hdec|].
  intros Hclaim.
  destruct (round_trip_claim_tokens _ _ _ _ _ Henc Hclaim) as ([|fuel] & Hback).
  - rewrite Hgas in Hback. discriminate.
  - rewrite (ss_decrypt_file_more_fuel 1 (S fuel) _ _ _ _ ltac:(lia) Hdec)
      in Hback.
    discriminate.
Qed.

(** ** ss_decrypt_file on a token that is no hexadecimal integer *)


(** The passes of [ss_decrypt_file] once the token under the head is no
    hexadecimal integer: each one decrypts the value read last and writes
    its block again. *)
Lemma ss_decrypt_file_stuck block_size d pq ciphertext block rest k outfile :
  (exists plaintext,
     ss_decrypt ciphertext d pq = Ok plaintext /\
     mpz_export plaintext = block /\
     (block_size <? Z.of_nat (length block)) = false /\
     (Z.of_nat (length block) =? 0) = false) ->
  passes k (ss_decrypt_file_body block_size d pq)
         (mkDec (Junk :: rest) ciphertext outfile)
  = Ok (inl (mkDec (Junk :: rest) ciphertext
                   (outfile ++ concat (repeat (tl block) k)))).
Proof.
  intros (plaintext & Hdec & Hexp & Hfits & Hnz).
  revert outfile; induction k as [|k IH]; intros outfile.
  - cbn. now rewrite app_nil_r.
  - cbn [passes]. unfold ss_decrypt_file_body at 1.
    cbn [dec_infile dec_ciphertext dec_outfile gmp_fscanf_Zx].
    change (0 =? -1) with false; cbv iota.
    rewrite Hdec; cbn [bind]. rewrite Hexp, Hfits, Hnz.
    rewrite IH. cbn [repeat concat]. now rewrite app_assoc.
Qed.

(** C4 at a stream of one good token and one that is no hexadecimal
    integer, under the key above: [ss_decrypt_file] never returns, and
    every pass writes the block of the good token again. *)
Theorem ss_decrypt_file_junk_token :
  (forall fuel,
     ss_decrypt_file fuel [Hex 213879367758236; Junk] 1431677611 4295229443
     = Gas) /\
  (forall k,
     passes (S k) (ss_decrypt_file_body 4 1431677611 4295229443)
            (mkDec [Hex 213879367758236; Junk] 0 [])
     = Ok (inl (mkDec [Junk] 213879367758236
                      (concat (repeat ["H"%byte; x00] (S k)))))).
Proof.
  assert (Hsize : decrypt_block_size 4295229443 = Ok 4)
    by (vm_compute; reflexivity).
  assert (Hfirst : forall ciphertext outfile,
             ss_decrypt_file_body 4 1431677611 4295229443
               (mkDec [Hex 213879367758236; Junk] ciphertext outfile)
             = Ok (inl (mkDec [Junk] 213879367758236
                              (outfile ++ ["H"%byte; x00]))))
    by (intros; vm_compute; reflexivity).
  assert (Hagain : forall outfile,
             ss_decrypt_file_body 4 1431677611 4295229443
               (mkDec [Junk] 213879367758236 outfile)
             = Ok (inl (mkDec [Junk] 213879367758236
                              (outfile ++ ["H"%byte; x00]))))
    by (intros; vm_compute; reflexivity).
  assert (Hstuck : forall k outfile,
             passes k (ss_decrypt_file_body 4 1431677611 4295229443)
                    (mkDec [Junk] 213879367758236 outfile)
             = Ok (inl (mkDec [Junk] 213879367758236
                              (outfile ++ concat (repeat ["H"%byte; x00] k))))).
  { intros k outfile.
    apply (ss_decrypt_file_stuck 4 1431677611 4295229443 213879367758236
             [xff; "H"%byte; x00]).
    exists 16730112.
    split; [vm_compute; reflexivity|]. split; [vm_compute; reflexivity|].
    split; vm_compute; reflexivity. }
  split.
  - intros fuel. unfold ss_decrypt_file. rewrite Hsize; cbn [bind].
    apply (loop_forever _
             (fun st => dec_infile st = [Hex 213879367758236; Junk] \/
                        dec_infile st = [Junk] /\
                        dec_ciphertext st = 213879367758236));
      [|now left].
    intros [inf c out]; cbn [dec_infile dec_ciphertext].
    intros [->|[-> ->]].
    + exists (mkDec [Junk] 213879367758236 (out ++ ["H"%byte; x00])).
      split; [apply Hfirst|]. right; split; reflexivity.
    + exists (mkDec [Junk] 213879367758236 (out ++ ["H"%byte; x00])).
      split; [apply Hagain|]. right; split; reflexivity.
  - intros k. cbn [passes]. rewrite Hfirst, Hstuck. reflexivity.
Qed.

(** With nothing read before, the first pass already goes wrong: the zero
    that [ciphertext] starts with decrypts to zero, nothing is exported, and
    the count given to [fwrite] wraps around. *)
Example ss_decrypt_file_junk_first :
  ss_decrypt_file 1 [Junk] 1431677611 4295229443 = Fault.
Proof. vm_compute. reflexivity. Qed.

(** * Further properties *)

(** ** numtheory.c *)

(** X1.  On non-negative values [gcd] returns the greatest common divisor;
    its loop ends and nothing in it is undefined. *)
Theorem gcd_correct (a b : Z) :
  0 <= a -> 0 <= b ->
  exists g, gcd a b = Ok g /\ 0 <= g /\ (g | a) /\ (g | b) /\
            forall c, (c | a) -> (c | b) -> (c | g).
Proof.
  intros Ha Hb. exists (Z.gcd a b). rewrite gcd_spec by assumption.
  split; [reflexivity|]. split; [apply Z.gcd_nonneg|].
  split; [apply Z.gcd_divide_l|]. split; [apply Z.gcd_divide_r|].
  intros c; apply Z.gcd_greatest.
Qed.

Lemma gcd_correct_witness :
  0 <= 12 /\ 0 <= 18 /\
  exists g, gcd 12 18 = Ok g /\ 0 <= g /\ (g | 12) /\ (g | 18) /\
            forall c, (c | 12) -> (c | 18) -> (c | g).
Proof.
  split; [lia|]. split; [lia|]. apply (gcd_correct 12 18); lia.
Defined.

(** X2.  With a positive exponent and a modulus other than 0, [pow_mod] is
    exponentiation modulo [|modulus|], and agrees with GMP's [mpz_powm],
    which [ss_encrypt] and [ss_decrypt] use. *)
Theorem pow_mod_correct (base exponent modulus : Z) :
  0 < exponent -> modulus <> 0 ->
  pow_mod base exponent modulus = Ok ((base ^ exponent) mod Z.abs modulus) /\
  pow_mod base exponent modulus = mpz_powm base exponent modulus.
Proof.
  intros He Hm. rewrite pow_mod_spec by lia.
  destruct (Z.eqb_spec exponent 0); [lia|]. split; [reflexivity|].
  unfold mpz_powm.
  destruct (Z.eqb_spec modulus 0); [contradiction|].
  destruct (Z.ltb_spec exponent 0); [lia|].
  now rewrite Zpow_mod_correct by lia.
Qed.

Lemma pow_mod_correct_witness :
  0 < 5 /\ -11 <> 0 /\
  pow_mod 3 5 (-11) = Ok ((3 ^ 5) mod Z.abs (-11)) /\
  pow_mod 3 5 (-11) = mpz_powm 3 5 (-11).
Proof.
  split; [lia|]. split; [lia|]. apply (pow_mod_correct 3 5 (-11)); lia.
Defined.

(** X3.  The edges of [pow_mod]: an exponent of 0 or below gives 1 without
    any reduction, whatever the modulus (so 1 even modulo 1 or 0); a
    positive exponent with modulus 0 is a division by zero. *)
Theorem pow_mod_edges (base exponent modulus : Z) :
  (exponent <= 0 -> pow_mod base exponent modulus = Ok 1) /\
  (0 < exponent -> pow_mod base exponent 0 = Fault).
Proof.
  split; intros He; unfold pow_mod.
  - destruct (bit_fuel exponent); cbn [loop]; unfold pow_mod_body;
      destruct (Z.gtb_spec exponent 0); try lia; reflexivity.
  - unfold bit_fuel. rewrite loop_S. unfold pow_mod_body, mpz_mod.
    destruct (Z.gtb_spec exponent 0); [|lia].
    change (0 =? 0) with true. cbv iota.
    destruct (negb (exponent mod 2 =? 0)); reflexivity.
Qed.

Lemma pow_mod_edges_witness :
  (-3 <= 0 /\ pow_mod 7 (-3) 1 = Ok 1) /\
  (0 < 2 /\ pow_mod 7 2 0 = Fault).
Proof.
  split.
  - split; [lia|]. apply (proj1 (pow_mod_edges 7 (-3) 1)); lia.
  - split; [lia|]. apply (proj2 (pow_mod_edges 7 2 0)); lia.
Defined.

(** What [is_prime] accepts is 2 or odd. *)
Lemma is_prime_true_odd number iterations w w' :
  is_prime number iterations w = Ok (true, w') ->
  number = 2 \/ Z.odd number = true.
Proof.
  intros H. destruct (Z.eq_dec number 2) as [|Hne]; [now left|right].
  destruct (Z.odd number) eqn:Hodd; [reflexivity|].
  rewrite is_prime_even in H; [discriminate| |assumption].
  now rewrite <- Z.negb_odd, Hodd.
Qed.

(** With [bit_size = 0] the subtraction wraps around: the only candidate is
    the even number [2^(2^64-1)], which [is_prime] rejects every time. *)
Lemma make_prime_zero_bits fuel iterations w v w' :
  make_prime fuel 0 iterations w <> Ok (v, w').
Proof.
  intros Hrun.
  destruct (make_prime_Ok _ _ _ _ _ _ (Z.le_refl 0) Hrun)
    as ((w0 & Haccepted) & x & Hx & Hv).
  change (2 ^ 0) with 1 in Hx. assert (x = 0) by lia; subst x.
  assert (He : 2 <= wrap64 (0 - 1)) by (vm_compute; discriminate).
  revert Hv He. generalize (wrap64 (0 - 1)). intros e Hv He.
  rewrite Z.add_0_l in Hv.
  assert (Hfour : 2 ^ 2 <= 2 ^ e) by (apply Z.pow_le_mono_r; lia).
  change (2 ^ 2) with 4 in Hfour.
  rewrite is_prime_even in Haccepted; [discriminate| |lia].
  rewrite Hv, Z.even_pow by lia. reflexivity.
Qed.

(** X4.  What [make_prime] returns for [bits >= 1] is a draw of [bits] bits
    plus [2^(bits-1)]: it lies between [2^(bits-1)] and [3 * 2^(bits-1)], so
    it has [bits] bits or one more, and it is 2 or odd.  With [bits = 0] the
    subtraction wraps around, the only candidate is the even number
    [2^(2^64-1)], and [make_prime] never returns. *)
Theorem make_prime_range fuel bits iterations w v w' :
  0 <= bits < 2 ^ 64 ->
  make_prime fuel bits iterations w = Ok (v, w') ->
  1 <= bits /\
  2 ^ (bits - 1) <= v < 3 * 2 ^ (bits - 1) /\
  (v = 2 \/ Z.odd v = true).
Proof.
  intros Hbits Hrun.
  destruct (make_prime_Ok _ _ _ _ _ _ (proj1 Hbits) Hrun)
    as ((w0 & Haccepted) & x & Hx & Hv).
  pose proof (is_prime_true_odd _ _ _ _ Haccepted) as Hshape.
  destruct (Z.eq_dec bits 0) as [->|Hne].
  - exfalso. exact (make_prime_zero_bits _ _ _ _ _ Hrun).
  - rewrite wrap64_pred in Hv by lia.
    assert (Hpow : 2 ^ bits = 2 * 2 ^ (bits - 1)).
    { rewrite <- Z.pow_succ_r by lia. f_equal; lia. }
    split; [lia|]. split; [lia|assumption].
Qed.

Lemma make_prime_range_witness :
  0 <= 4 < 2 ^ 64 /\
  make_prime 5 4 3 make_prime_world = Ok (11, make_prime_end) /\
  1 <= 4 /\ 2 ^ (4 - 1) <= 11 < 3 * 2 ^ (4 - 1) /\
  (11 = 2 \/ Z.odd 11 = true).
Proof.
  split; [lia|]. split; [vm_compute; reflexivity|].
  apply (make_prime_range 5 4 3 make_prime_world 11 make_prime_end).
  - lia.
  - vm_compute; reflexivity.
Defined.

(** ** ss.c: key generation *)

Lemma rand_Ok w r w' : rand w = Ok (r, w') -> 0 <= r <= RAND_MAX.
Proof.
  unfold rand. destruct (draw (libc w)) as [raw t]. intros [= <- _].
  unfold RAND_MAX.
  pose proof (Z.mod_pos_bound raw 2147483648 ltac:(reflexivity)). lia.
Qed.

(** The sizes [ss_make_pub] asks [make_prime] for, and what it gets. *)
Lemma ss_make_pub_sizes fuel total_bits iterations w p q n w' :
  6 <= total_bits < 2 ^ 63 ->
  ss_make_pub fuel total_bits iterations w = Ok (p, q, n, w') ->
  exists p_bits q_bits,
    total_bits / 5 <= p_bits <= 2 * total_bits / 5 /\
    2 ^ (p_bits - 1) <= p < 3 * 2 ^ (p_bits - 1) /\
    q_bits = total_bits - mpz_sizeinbase2 (p * p) /\ 1 <= q_bits /\
    2 ^ (q_bits - 1) <= q < 3 * 2 ^ (q_bits - 1) /\
    n = p * p * q.
Proof.
  intros Htb. unfold ss_make_pub; intros Hrun.
  apply bindM_Ok in Hrun; destruct Hrun as ([p0 q0] & w1 & Hloop & Hret).
  apply ret_Ok in Hret; destruct Hret as [[= -> -> ->] ->].
  assert (Hmax : wrap64 (2 * total_bits) / 5 = 2 * total_bits / 5)
    by (unfold wrap64; rewrite Z.mod_small by lia; reflexivity).
  rewrite Hmax in Hloop.
  refine (loopM_partial _ (fun _ _ => True)
            (fun pq _ =>
               exists p_bits q_bits,
                 total_bits / 5 <= p_bits <= 2 * total_bits / 5 /\
                 2 ^ (p_bits - 1) <= fst pq < 3 * 2 ^ (p_bits - 1) /\
                 q_bits = total_bits - mpz_sizeinbase2 (fst pq * fst pq) /\
                 1 <= q_bits /\
                 2 ^ (q_bits - 1) <= snd pq < 3 * 2 ^ (q_bits - 1) /\
                 fst pq * fst pq * snd pq = fst pq * fst pq * snd pq)
            _ fuel (0, 0) w (p0, q0) w1 I Hloop).
  clear - Htb; intros st w _; unfold ss_make_pub_body.
  destruct (_ <~ rand;; _) as [[[st'|[p q]] w']| |] eqn:Hbody; trivial.
  apply bindM_Ok in Hbody; destruct Hbody as (r & w1 & Hr & Hbody).
  apply rand_Ok in Hr. unfold RAND_MAX in Hr.
  set (min_p_bits := total_bits / 5) in *.
  set (max_p_bits := 2 * total_bits / 5) in *.
  assert (Hmin : 1 <= min_p_bits)
    by (unfold min_p_bits; apply Z.div_le_lower_bound; lia).
  assert (Hminmax : min_p_bits <= max_p_bits)
    by (unfold min_p_bits, max_p_bits; apply Z.div_le_mono; lia).
  assert (Hmaxb : 2 * max_p_bits + 2 <= total_bits).
  { unfold max_p_bits. clear - Htb.
    pose proof (Z.mul_div_le (2 * total_bits) 5 ltac:(lia)).
    destruct (Z_le_gt_dec 10 total_bits); [lia|].
    assert (total_bits = 6 \/ total_bits = 7 \/ total_bits = 8 \/
            total_bits = 9) as [-> | [-> | [-> | ->]]] by lia;
      vm_compute; discriminate. }
  assert (Hrange : wrap64 (wrap64 (max_p_bits - min_p_bits) + 1)
                   = max_p_bits - min_p_bits + 1).
  { unfold wrap64. rewrite (Z.mod_small (max_p_bits - min_p_bits)) by lia.
    apply Z.mod_small; lia. }
  rewrite Hrange in Hbody.
  destruct (Z.eqb_spec (max_p_bits - min_p_bits + 1) 0); [lia|].
  pose proof (Z.mod_pos_bound r (max_p_bits - min_p_bits + 1) ltac:(lia)).
  set (p_bits := r mod (max_p_bits - min_p_bits + 1) + min_p_bits) in *.
  assert (Hpb : wrap64 p_bits = p_bits)
    by (unfold wrap64; apply Z.mod_small; lia).
  rewrite Hpb in Hbody.
  apply bindM_Ok in Hbody; destruct Hbody as (p1 & w2 & Hp & Hbody).
  apply bindM_Ok in Hbody; destruct Hbody as (q1 & w3 & Hq & Hbody).
  apply bindM_Ok in Hbody; destruct Hbody as (c1 & w4 & _ & Hbody).
  apply bindM_Ok in Hbody; destruct Hbody as (c2 & w5 & _ & Hbody).
  destruct (_ && _); apply ret_Ok in Hbody; destruct Hbody as [Hout _];
    [|discriminate].
  injection Hout as -> ->. cbn [fst snd].
  apply make_prime_Ok in Hp; [|lia].
  destruct Hp as (_ & xp & Hxp & Hp1).
  rewrite wrap64_pred in Hp1 by lia.
  assert (Hpow : 2 ^ p_bits = 2 * 2 ^ (p_bits - 1)).
  { rewrite <- Z.pow_succ_r by lia. f_equal; lia. }
  assert (Hp_range : 2 ^ (p_bits - 1) <= p1 < 3 * 2 ^ (p_bits - 1)) by lia.
  assert (Hfloor : 1 <= 2 ^ (p_bits - 1))
    by (apply Z.lt_pred_le, Z.pow_pos_nonneg; lia).
  (* the bits of p * p *)
  assert (Hsq : p1 * p1 < 2 ^ (2 * p_bits + 2)).
  { replace (2 * p_bits + 2) with (4 + ((p_bits - 1) + (p_bits - 1))) by ring.
    rewrite !Z.pow_add_r by lia. change (2 ^ 4) with 16. nia. }
  assert (Hsize : mpz_sizeinbase2 (p1 * p1) <= 2 * p_bits + 2).
  { unfold mpz_sizeinbase2. destruct (Z.eqb_spec (p1 * p1) 0); [nia|].
    rewrite Z.abs_eq by nia.
    apply Z.log2_lt_pow2 in Hsq; [lia|nia]. }
  assert (Hsize1 : 1 <= mpz_sizeinbase2 (p1 * p1)).
  { unfold mpz_sizeinbase2. destruct (_ =? _); [lia|].
    pose proof (Z.log2_nonneg (Z.abs (p1 * p1))). lia. }
  set (q_bits := total_bits - mpz_sizeinbase2 (p1 * p1)) in *.
  assert (Hqb : wrap64 q_bits = q_bits)
    by (unfold wrap64; apply Z.mod_small; lia).
  rewrite Hqb in Hq.
  destruct (Z.eq_dec q_bits 0) as [Hzero|Hpos];
    [rewrite Hzero in Hq; destruct (make_prime_zero_bits _ _ _ _ _ Hq)|].
  apply make_prime_Ok in Hq; [|lia].
  destruct Hq as (_ & xq & Hxq & Hq1).
  rewrite wrap64_pred in Hq1 by lia.
  assert (Hpowq : 2 ^ q_bits = 2 * 2 ^ (q_bits - 1)).
  { rewrite <- Z.pow_succ_r by lia. f_equal; lia. }
  exists p_bits, q_bits.
  split; [lia|]. split; [assumption|]. split; [reflexivity|].
  split; [lia|]. split; [lia|reflexivity].
Qed.

(** The modulus has [total_bits] bits, one less or one more. *)
Lemma ss_make_pub_modulus_bounds fuel total_bits iterations w p q n w' :
  6 <= total_bits < 2 ^ 63 ->
  ss_make_pub fuel total_bits iterations w = Ok (p, q, n, w') ->
  2 ^ (total_bits - 2) <= n < 3 * 2 ^ (total_bits - 1).
Proof.
  intros Htb Hrun.
  destruct (ss_make_pub_sizes _ _ _ _ _ _ _ _ Htb Hrun)
    as (p_bits & q_bits & Hpb & Hp & Hqb & Hq1 & Hq & ->).
  assert (Hmin : 1 <= total_bits / 5) by (apply Z.div_le_lower_bound; lia).
  assert (Hp1 : 1 <= p).
  { assert (0 < 2 ^ (p_bits - 1)) by (apply Z.pow_pos_nonneg; lia). lia. }
  unfold mpz_sizeinbase2 in Hqb.
  destruct (Z.eqb_spec (p * p) 0); [nia|].
  rewrite Z.abs_eq in Hqb by nia.
  destruct (Z.log2_spec (p * p) ltac:(nia)) as [Hlow Hhigh].
  set (l := Z.log2 (p * p)) in *.
  assert (0 <= l) by apply Z.log2_nonneg.
  rewrite Z.pow_succ_r in Hhigh by assumption.
  assert (Htotal : 2 ^ (total_bits - 2) = 2 ^ l * 2 ^ (q_bits - 1)).
  { rewrite <- Z.pow_add_r by lia. f_equal; lia. }
  assert (Htotal' : 2 ^ (total_bits - 1) = 2 * 2 ^ (total_bits - 2)).
  { rewrite <- Z.pow_succ_r by lia. f_equal; lia. }
  rewrite Htotal', Htotal.
  assert (0 < 2 ^ l) by (apply Z.pow_pos_nonneg; lia).
  assert (0 < 2 ^ (q_bits - 1)) by (apply Z.pow_pos_nonneg; lia).
  split; nia.
Qed.

(** X5.  For [total_bits] from 6 on, [ss_make_pub] returns a modulus [n] of
    [total_bits - 1], [total_bits] or [total_bits + 1] bits:
    [2^(total_bits-2) <= n < 3 * 2^(total_bits-1)]; [p] has between
    [total_bits/5] and [2*total_bits/5 + 1] bits, and [q] is asked to fill
    what the bits of [p * p] leave of [total_bits]. *)
Theorem ss_make_pub_modulus_size fuel total_bits iterations w p q n w' :
  6 <= total_bits < 2 ^ 63 ->
  ss_make_pub fuel total_bits iterations w = Ok (p, q, n, w') ->
  2 ^ (total_bits - 2) <= n < 3 * 2 ^ (total_bits - 1) /\
  2 ^ (total_bits / 5 - 1) <= p < 3 * 2 ^ (2 * total_bits / 5 - 1) /\
  let q_bits := total_bits - mpz_sizeinbase2 (p * p) in
  1 <= q_bits /\ 2 ^ (q_bits - 1) <= q < 3 * 2 ^ (q_bits - 1).
Proof.
  intros Htb Hrun.
  split; [exact (ss_make_pub_modulus_bounds _ _ _ _ _ _ _ _ Htb Hrun)|].
  destruct (ss_make_pub_sizes _ _ _ _ _ _ _ _ Htb Hrun)
    as (p_bits & q_bits & Hpb & Hp & Hqb & Hq1 & Hq & _).
  assert (Hmin : 1 <= total_bits / 5) by (apply Z.div_le_lower_bound; lia).
  split.
  - assert (2 ^ (total_bits / 5 - 1) <= 2 ^ (p_bits - 1))
      by (apply Z.pow_le_mono_r; lia).
    assert (2 ^ (p_bits - 1) <= 2 ^ (2 * total_bits / 5 - 1))
      by (apply Z.pow_le_mono_r; lia).
    lia.
  - cbv zeta. rewrite <- Hqb. split; assumption.
Qed.

Lemma ss_make_pub_modulus_size_witness :
  6 <= 24 < 2 ^ 63 /\
  ss_make_pub 5 24 1 keygen24_world = Ok (11, 65537, 7929977, keygen24_end) /\
  2 ^ (24 - 2) <= 7929977 < 3 * 2 ^ (24 - 1) /\
  2 ^ (24 / 5 - 1) <= 11 < 3 * 2 ^ (2 * 24 / 5 - 1) /\
  let q_bits := 24 - mpz_sizeinbase2 (11 * 11) in
  1 <= q_bits /\ 2 ^ (q_bits - 1) <= 65537 < 3 * 2 ^ (q_bits - 1).
Proof.
  split; [lia|]. split; [vm_compute; reflexivity|].
  apply (ss_make_pub_modulus_size 5 24 1 keygen24_world 11 65537 7929977
           keygen24_end).
  - lia.
  - vm_compute; reflexivity.
Defined.

(** ** ss.c: the private key *)

(** The local [lambda] of [ss_make_priv] is the least common multiple of
    [p - 1] and [q - 1]. *)
Lemma ss_make_priv_lambda_lcm p q :
  2 <= p -> 2 <= q ->
  ss_make_priv_lambda p q = Ok (Z.lcm (p - 1) (q - 1)).
Proof.
  intros Hp Hq. unfold ss_make_priv_lambda.
  rewrite gcd_spec by lia. cbn [bind]. unfold mpz_divexact.
  assert (Hg : Z.gcd (p - 1) (q - 1) <> 0)
    by (intros [E _]%Z.gcd_eq_0; lia).
  destruct (Z.eqb_spec (Z.gcd (p - 1) (q - 1)) 0); [contradiction|].
  f_equal. unfold Z.lcm.
  rewrite Z.divide_div_mul_exact by (assumption || apply Z.gcd_divide_r).
  symmetry; apply Z.abs_eq.
  pose proof (Z.gcd_nonneg (p - 1) (q - 1)).
  apply Z.mul_nonneg_nonneg; [lia|]. apply Z.div_pos; lia.
Qed.

Lemma lcm_pred_bounds p q :
  2 <= p -> 2 <= q ->
  p - 1 <= Z.lcm (p - 1) (q - 1) /\ q - 1 <= Z.lcm (p - 1) (q - 1).
Proof.
  intros Hp Hq.
  pose proof (Z.lcm_nonneg (p - 1) (q - 1)) as Hnn.
  assert (Hnz : Z.lcm (p - 1) (q - 1) <> 0)
    by (intros [E|E]%Z.lcm_eq_0; lia).
  split; apply Z.divide_pos_le; try lia;
    [apply Z.divide_lcm_l|apply Z.divide_lcm_r].
Qed.

(** X6.  For two different primes that pass the test of [ss_make_pub],
    [ss_make_priv] returns [pq = p * q] and the one [d] between 1 and
    [lcm (p-1) (q-1)] with [n * d = 1] modulo [lcm (p-1) (q-1)], where
    [n = p * p * q]. *)
Theorem ss_make_priv_key (p q : Z) :
  Z.prime p -> Z.prime q -> p <> q ->
  (q - 1) mod p <> 0 -> (p - 1) mod q <> 0 ->
  exists d,
    ss_make_priv p q = Ok (d, p * q) /\
    0 < d < Z.lcm (p - 1) (q - 1) /\
    (p * p * q * d) mod Z.lcm (p - 1) (q - 1) = 1 /\
    forall d', 0 <= d' < Z.lcm (p - 1) (q - 1) ->
               (p * p * q * d') mod Z.lcm (p - 1) (q - 1) = 1 -> d' = d.
Proof.
  intros Hp Hq Hne Hap Haq.
  pose proof (Z.prime_ge_2 p Hp) as Hp2. pose proof (Z.prime_ge_2 q Hq) as Hq2.
  destruct (scheme_odd p q Hp Hq Hne Hap Haq) as [Hp3 Hq3].
  set (lambda := Z.lcm (p - 1) (q - 1)).
  assert (Hlambda : 1 < lambda)
    by (pose proof (lcm_pred_bounds p q Hp2 Hq2); unfold lambda; lia).
  assert (Hcoprime : Z.gcd (ss_make_priv_n p q) lambda = 1).
  { apply (modulus_coprime_lambda p q Hp Hq Hap Haq).
    apply Z.lcm_least; [apply Z.divide_factor_l|apply Z.divide_factor_r]. }
  assert (Hn : ss_make_priv_n p q = p * p * q)
    by (unfold ss_make_priv_n; ring).
  destruct (mod_inverse_coprime (ss_make_priv_n p q) lambda)
    as (d & Hd & Hrange & Hinv); [rewrite Hn; nia|assumption|assumption|].
  exists d. unfold ss_make_priv.
  rewrite ss_make_priv_lambda_lcm by assumption. cbn [bind]. fold lambda.
  rewrite Hd; cbn [bind]. rewrite Hn in Hinv.
  split; [reflexivity|]. split; [|split; [assumption|]].
  - assert (d <> 0); [|lia]. intros ->.
    rewrite Z.mul_0_r, Z.mod_0_l in Hinv by lia. discriminate.
  - intros d' Hd' Hinv'.
    apply (inverse_unique (p * p * q) lambda); try assumption; lia.
Qed.

Lemma ss_make_priv_key_witness :
  Z.prime 11 /\ Z.prime 65537 /\
  exists d,
    ss_make_priv 11 65537 = Ok (d, 11 * 65537) /\
    0 < d < Z.lcm (11 - 1) (65537 - 1) /\
    (11 * 11 * 65537 * d) mod Z.lcm (11 - 1) (65537 - 1) = 1 /\
    forall d', 0 <= d' < Z.lcm (11 - 1) (65537 - 1) ->
               (11 * 11 * 65537 * d') mod Z.lcm (11 - 1) (65537 - 1) = 1 ->
               d' = d.
Proof.
  assert (H11 : Z.prime 11)
    by (apply prime_by_trial_sound; vm_compute; reflexivity).
  assert (H65537 : Z.prime 65537)
    by (apply prime_by_trial_sound; vm_compute; reflexivity).
  split; [assumption|]. split; [assumption|].
  apply (ss_make_priv_key 11 65537 H11 H65537); vm_compute; discriminate.
Defined.

(** X7.  [ss_make_priv] reports nothing on a pair that fails the test of
    [ss_make_pub]: when [p] divides [q - 1] or [q] divides [p - 1] it
    returns 0 as the private key. *)
Theorem ss_make_priv_rejected_pair (p q : Z) :
  2 <= p -> 2 <= q ->
  (q - 1) mod p = 0 \/ (p - 1) mod q = 0 ->
  ss_make_priv p q = Ok (0, p * q).
Proof.
  intros Hp Hq Htest.
  pose proof (lcm_pred_bounds p q Hp Hq) as [Hlp Hlq].
  set (lambda := Z.lcm (p - 1) (q - 1)) in *.
  assert (Hfactor : exists f, 2 <= f /\ (f | ss_make_priv_n p q) /\
                              (f | lambda)).
  { destruct Htest as [H|H]; apply Z.mod_divide in H; try lia.
    - exists p. split; [assumption|]. split.
      + exists (p * q). unfold ss_make_priv_n; ring.
      + etransitivity; [exact H|apply Z.divide_lcm_r].
    - exists q. split; [assumption|]. split.
      + exists (p * p). unfold ss_make_priv_n; ring.
      + etransitivity; [exact H|apply Z.divide_lcm_l]. }
  destruct Hfactor as (f & Hf & Hfn & Hfl).
  assert (Hlambda : 1 < lambda).
  { assert (f <= lambda) by (apply Z.divide_pos_le; [lia|assumption]). lia. }
  unfold ss_make_priv.
  rewrite ss_make_priv_lambda_lcm by assumption. cbn [bind]. fold lambda.
  rewrite mod_inverse_common_factor; [reflexivity| |assumption|].
  - unfold ss_make_priv_n; nia.
  - intros Hgcd.
    assert (H1 : (f | 1)) by (rewrite <- Hgcd; now apply Z.gcd_greatest).
    apply Z.divide_1_r in H1. lia.
Qed.

Lemma ss_make_priv_rejected_pair_witness :
  2 <= 3 /\ 2 <= 7 /\ ((7 - 1) mod 3 = 0 \/ (3 - 1) mod 7 = 0) /\
  ss_make_priv 3 7 = Ok (0, 3 * 7).
Proof.
  split; [lia|]. split; [lia|]. split; [left; reflexivity|].
  apply (ss_make_priv_rejected_pair 3 7); [lia|lia|left; reflexivity].
Defined.

(** ** ss.c: one block through [ss_encrypt] and [ss_decrypt] *)

Lemma ss_decrypt_encrypt_mod p q d m :
  Z.prime p -> Z.prime q -> p <> q ->
  (q - 1) mod p <> 0 -> (p - 1) mod q <> 0 ->
  ss_make_priv p q = Ok (d, p * q) ->
  exists c, ss_encrypt m (p * p * q) = Ok c /\ 0 <= c < p * p * q /\
            ss_decrypt c d (p * q) = Ok (m mod (p * q)).
Proof.
  intros Hp Hq Hne Hap Haq Hpriv.
  pose proof (Z.prime_ge_2 p Hp). pose proof (Z.prime_ge_2 q Hq).
  destruct (private_key_spec p q Hp Hq Hne Hap Haq)
    as (d0 & Hpriv0 & Hd & Hcorrect).
  rewrite Hpriv in Hpriv0; injection Hpriv0 as <-.
  assert (Hn : ss_make_priv_n p q = p * p * q)
    by (unfold ss_make_priv_n; ring).
  rewrite Hn in Hcorrect.
  assert (0 < p * q) by nia. assert (0 < p * p * q) by nia.
  rewrite ss_encrypt_Ok by assumption.
  eexists; split; [reflexivity|].
  rewrite Zpow_mod_correct by lia.
  split; [apply Z.mod_pos_bound; assumption|].
  unfold ss_decrypt, mpz_powm.
  destruct (Z.eqb_spec (p * q) 0); [lia|].
  destruct (Z.ltb_spec d 0); [lia|].
  f_equal. rewrite Z.abs_eq, Zpow_mod_correct by lia.
  rewrite <- Z.mod_pow_l, Z.mod_mod_divide, Z.mod_pow_l, <- Z.pow_mul_r
    by (lia || (exists p; ring)).
  rewrite <- Z.mod_pow_l.
  apply Hcorrect, Z.mod_pos_bound; assumption.
Qed.

(** X8.  Key generation, then one block: for [p], [q], [n] from
    [ss_make_pub] with [p] and [q] two different primes, and [d], [pq] from
    [ss_make_priv], [ss_decrypt (ss_encrypt m n) d pq] is [m mod pq] for
    every integer [m], so [m] itself when [0 <= m < pq]; and the ciphertext
    lies in [0 .. n-1]. *)
Theorem ss_key_pair_inverts fuel total_bits iterations w p q n w' d pq m :
  ss_make_pub fuel total_bits iterations w = Ok (p, q, n, w') ->
  Z.prime p -> Z.prime q -> p <> q ->
  ss_make_priv p q = Ok (d, pq) ->
  exists c, ss_encrypt m n = Ok c /\ 0 <= c < n /\
            ss_decrypt c d pq = Ok (m mod pq) /\
            (0 <= m < pq -> ss_decrypt c d pq = Ok m).
Proof.
  intros Hpub Hp Hq Hne Hpriv.
  apply ss_make_pub_Ok in Hpub; destruct Hpub as (_ & [Hap Haq] & ->).
  destruct (ss_make_priv_Ok _ _ _ _ Hpriv) as [-> _].
  destruct (ss_decrypt_encrypt_mod p q d m Hp Hq Hne Hap Haq Hpriv)
    as (c & Hc & Hrange & Hdec).
  exists c. split; [assumption|]. split; [assumption|].
  split; [assumption|].
  intros Hm. rewrite Hdec, Z.mod_small by assumption. reflexivity.
Qed.

Lemma ss_key_pair_inverts_witness :
  ss_make_pub 5 24 1 keygen24_world = Ok (11, 65537, 7929977, keygen24_end) /\
  Z.prime 11 /\ Z.prime 65537 /\ 11 <> 65537 /\
  ss_make_priv 11 65537 = Ok (158153, 720907) /\
  exists c, ss_encrypt 1000000 7929977 = Ok c /\ 0 <= c < 7929977 /\
            ss_decrypt c 158153 720907 = Ok (1000000 mod 720907) /\
            (0 <= 1000000 < 720907 ->
             ss_decrypt c 158153 720907 = Ok 1000000).
Proof.
  assert (Hpub : ss_make_pub 5 24 1 keygen24_world
                 = Ok (11, 65537, 7929977, keygen24_end))
    by (vm_compute; reflexivity).
  assert (H11 : Z.prime 11)
    by (apply prime_by_trial_sound; vm_compute; reflexivity).
  assert (H65537 : Z.prime 65537)
    by (apply prime_by_trial_sound; vm_compute; reflexivity).
  assert (Hne : 11 <> 65537) by discriminate.
  assert (Hpriv : ss_make_priv 11 65537 = Ok (158153, 720907))
    by (vm_compute; reflexivity).
  split; [assumption|]. split; [assumption|]. split; [assumption|].
  split; [assumption|]. split; [assumption|].
  exact (ss_key_pair_inverts 5 24 1 keygen24_world 11 65537 7929977
           keygen24_end 158153 720907 1000000 Hpub H11 H65537 Hne Hpriv).
Defined.

(** ** ss.c: files of any length *)

(** The padded reads of an input, put end to end, are the input followed
    by the zeros that fill its last read. *)
Lemma padded_reads_concat block_size fuel infile :
  2 <= block_size -> (length infile <= fuel)%nat ->
  let nmemb := Z.to_nat (block_size - 1) in
  concat (map (padded block_size) (reads_within fuel nmemb infile))
  = infile ++ repeat x00 ((nmemb - length infile mod nmemb) mod nmemb).
Proof.
  intros Hbs Hfuel nmemb.
  assert (Hn : (0 < nmemb)%nat) by (unfold nmemb; lia).
  revert infile Hfuel; induction fuel as [|fuel IH]; intros infile Hfuel.
  - destruct infile; [|cbn [length] in Hfuel; lia].
    cbn [reads_within map concat length app].
    rewrite Nat.Div0.mod_0_l, Nat.sub_0_r, Nat.Div0.mod_same. reflexivity.
  - cbn [reads_within].
    destruct (firstn nmemb infile) as [|b data] eqn:E.
    + destruct infile as [|b infile].
      * cbn [map concat length app].
        rewrite Nat.Div0.mod_0_l, Nat.sub_0_r, Nat.Div0.mod_same. reflexivity.
      * destruct nmemb; [lia|discriminate].
    + rewrite <- E. cbn [map concat].
      destruct (Nat.le_gt_cases (length infile) nmemb) as [Hshort|Hlong].
      * rewrite firstn_all2, skipn_all2, reads_within_nil by assumption.
        cbn [map concat]. rewrite app_nil_r. unfold padded. fold nmemb.
        f_equal. f_equal.
        assert (Hpos : (0 < length infile)%nat).
        { rewrite firstn_all2 in E by assumption. rewrite E. cbn; lia. }
        destruct (Nat.eq_dec (length infile) nmemb) as [->|Hlt].
        -- rewrite Nat.Div0.mod_same, Nat.sub_0_r, Nat.Div0.mod_same. lia.
        -- rewrite (Nat.mod_small (length infile)) by lia.
           rewrite Nat.mod_small by lia. reflexivity.
      * rewrite IH by (rewrite length_skipn; lia).
        rewrite length_skipn.
        assert (Hmod : ((length infile - nmemb) mod nmemb
                        = length infile mod nmemb)%nat).
        { replace (length infile) with (length infile - nmemb + 1 * nmemb)%nat
            at 2 by lia.
          now rewrite Nat.Div0.mod_add. }
        rewrite Hmod. unfold padded at 1. fold nmemb.
        rewrite length_firstn, Nat.min_l, Nat.sub_diag by lia.
        cbn [repeat]. rewrite app_nil_r, app_assoc, firstn_skipn.
        reflexivity.
Qed.

(** One read for every [nmemb] bytes, and one more for what is left. *)
Lemma reads_within_length nmemb fuel infile :
  (0 < nmemb)%nat -> (length infile <= fuel)%nat ->
  length (reads_within fuel nmemb infile)
  = ((length infile + nmemb - 1) / nmemb)%nat.
Proof.
  intros Hn. revert infile; induction fuel as [|fuel IH]; intros infile Hfuel.
  - destruct infile; [|cbn [length] in Hfuel; lia].
    cbn [reads_within length]. rewrite Nat.div_small; lia.
  - cbn [reads_within].
    destruct (firstn nmemb infile) as [|b data] eqn:E.
    + destruct infile as [|b infile].
      * cbn [length]. rewrite Nat.div_small; lia.
      * destruct nmemb; [lia|discriminate].
    + cbn [length]. rewrite IH by (rewrite length_skipn; lia).
      rewrite length_skipn.
      assert (Hpos : (0 < length infile)%nat).
      { destruct infile; [rewrite firstn_nil in E; discriminate|cbn; lia]. }
      destruct (Nat.le_gt_cases (length infile) nmemb) as [Hshort|Hlong].
      * replace (length infile - nmemb)%nat with 0%nat by lia.
        rewrite (Nat.div_small (0 + nmemb - 1)) by lia.
        apply (Nat.div_unique _ _ 1%nat (length infile - 1)); lia.
      * replace (length infile + nmemb - 1)%nat
          with (length infile - nmemb + nmemb - 1 + 1 * nmemb)%nat by lia.
        rewrite Nat.div_add by lia. lia.
Qed.

(** X9.  Key generation, then a file of any length: with [p] and [q] two
    different primes and a block size of at least 2, [ss_encrypt_file]
    writes one token for every [block_size - 1] bytes and one more for what
    is left, and [ss_decrypt_file] gives the input back followed by the
    zeros that fill the last block; so exactly the input when its length is
    a multiple of [block_size - 1]. *)
Theorem ss_file_round_trip_any_length
  fuel total_bits iterations w p q n w' block_size infile :
  ss_make_pub fuel total_bits iterations w = Ok (p, q, n, w') ->
  Z.prime p -> Z.prime q -> p <> q ->
  Z.log2 (p * q) < 65535 ->
  encrypt_block_size n = Ok block_size -> 2 <= block_size ->
  let nmemb := Z.to_nat (block_size - 1) in
  let padding := ((nmemb - length infile mod nmemb) mod nmemb)%nat in
  exists d pq tokens,
    ss_make_priv p q = Ok (d, pq) /\
    ss_encrypt_file infile n = Ok tokens /\
    length tokens = ((length infile + nmemb - 1) / nmemb)%nat /\
    (forall fuel',
       (length tokens <= fuel')%nat ->
       ss_decrypt_file fuel' (map Hex tokens) d pq
       = Ok (infile ++ repeat x00 padding)) /\
    ((length infile mod nmemb)%nat = 0%nat -> padding = 0%nat).
Proof.
  intros Hpub Hp Hq Hne Hsmall Hsize Hbs nmemb padding.
  apply ss_make_pub_Ok in Hpub; destruct Hpub as (_ & [Hap Haq] & ->).
  destruct (ss_file_round_trip p q block_size infile)
    as (d & tokens & Hpriv & Henc & Hdec); try assumption; [lia|].
  exists d, (p * q), tokens. split; [assumption|]. split; [assumption|].
  assert (Hn : (0 < nmemb)%nat) by (unfold nmemb; lia).
  split; [|split].
  - rewrite ss_encrypt_file_eq with (block_size := block_size) in Henc;
      [|assumption|lia|].
    + injection Henc as <-. rewrite !length_map.
      apply reads_within_length; [assumption|apply Nat.le_refl].
    + pose proof (Z.prime_ge_2 p Hp). pose proof (Z.prime_ge_2 q Hq). nia.
  - intros fuel' Hfuel. rewrite Hdec by assumption. f_equal.
    apply padded_reads_concat; [assumption|apply Nat.le_refl].
  - intros Hmod. unfold padding.
    rewrite Hmod, Nat.sub_0_r. apply Nat.Div0.mod_same.
Qed.

Lemma ss_file_round_trip_any_length_witness :
  ss_make_pub 5 50 1 keygen50_world
    = Ok (65537, 65539, 281496452005891, keygen50_end) /\
  Z.prime 65537 /\ Z.prime 65539 /\ 65537 <> 65539 /\
  Z.log2 (65537 * 65539) < 65535 /\
  encrypt_block_size 281496452005891 = Ok 3 /\ 2 <= 3 /\
  let infile := ["a"; "b"; "c"]%byte in
  let nmemb := Z.to_nat (3 - 1) in
  let padding := ((nmemb - length infile mod nmemb) mod nmemb)%nat in
  exists d pq tokens,
    ss_make_priv 65537 65539 = Ok (d, pq) /\
    ss_encrypt_file infile 281496452005891 = Ok tokens /\
    length tokens = ((length infile + nmemb - 1) / nmemb)%nat /\
    (forall fuel',
       (length tokens <= fuel')%nat ->
       ss_decrypt_file fuel' (map Hex tokens) d pq
       = Ok (infile ++ repeat x00 padding)) /\
    ((length infile mod nmemb)%nat = 0%nat -> padding = 0%nat).
Proof.
  split; [vm_compute; reflexivity|].
  split; [apply prime_by_trial_sound; vm_compute; reflexivity|].
  split; [apply prime_by_trial_sound; vm_compute; reflexivity|].
  split; [lia|]. split; [vm_compute; reflexivity|].
  split; [vm_compute; reflexivity|]. split; [lia|].
  apply (ss_file_round_trip_any_length 5 50 1 keygen50_world 65537 65539
           281496452005891 keygen50_end 3 ["a"; "b"; "c"]%byte).
  - vm_compute; reflexivity.
  - apply prime_by_trial_sound; vm_compute; reflexivity.
  - apply prime_by_trial_sound; vm_compute; reflexivity.
  - lia.
  - vm_compute; reflexivity.
  - vm_compute; reflexivity.
  - lia.
Defined.

(** ** ss.c: keys too short for a block *)

(** The block size of [ss_encrypt_file] for a modulus of fewer than 65536
    bits. *)
Lemma encrypt_block_size_small modulus_n :
  0 < modulus_n -> Z.log2 modulus_n < 65535 ->
  encrypt_block_size modulus_n = Ok (Z.log2 (Z.sqrt modulus_n) / 8).
Proof.
  intros Hn Hlog. unfold encrypt_block_size, mpz_sqrt.
  destruct (Z.ltb_spec modulus_n 0); [lia|]. cbn [bind].
  assert (Hs : 0 < Z.sqrt modulus_n) by (apply Z.sqrt_pos; lia).
  assert (Hle : Z.sqrt modulus_n <= modulus_n)
    by (apply Z.sqrt_le_lin; lia).
  pose proof (Z.log2_le_mono _ _ Hle).
  rewrite block_size_of_small by lia.
  unfold bit_length. destruct (Z.eqb_spec (Z.sqrt modulus_n) 0); [lia|].
  do 2 f_equal. ring.
Qed.

Lemma log2_sqrt_bounds n k :
  0 <= k -> 2 ^ (2 * k) <= n < 2 ^ (2 * (k + 8)) ->
  k <= Z.log2 (Z.sqrt n) < k + 8.
Proof.
  intros Hk [Hlow Hhigh].
  assert (Hpow : forall j, 0 <= j -> 2 ^ (2 * j) = 2 ^ j * 2 ^ j)
    by (intros j Hj; rewrite <- Z.pow_add_r by lia; f_equal; lia).
  rewrite Hpow in Hlow, Hhigh by lia.
  assert (Hk_pos : 0 < 2 ^ k) by (apply Z.pow_pos_nonneg; lia).
  assert (Hk8_pos : 0 < 2 ^ (k + 8)) by (apply Z.pow_pos_nonneg; lia).
  assert (Hs_low : 2 ^ k <= Z.sqrt n).
  { rewrite <- (Z.sqrt_square (2 ^ k)) by lia.
    apply Z.sqrt_le_mono; assumption. }
  assert (Hs_high : Z.sqrt n < 2 ^ (k + 8))
    by (apply Z.sqrt_lt_square; nia).
  split.
  - apply Z.log2_le_pow2; lia.
  - apply Z.log2_lt_pow2; lia.
Qed.

(** X10.  Keys of 6 to 15 bits, among them the 10 bits that [keygen] takes
    by default, leave [ss_encrypt_file] without a block: the modulus is
    below [2^16], the block size is 0, and the first store into the block
    is out of bounds, whatever the input. *)
Theorem ss_encrypt_file_short_key
  fuel total_bits iterations w p q n w' infile :
  6 <= total_bits <= 15 ->
  ss_make_pub fuel total_bits iterations w = Ok (p, q, n, w') ->
  encrypt_block_size n = Ok 0 /\ ss_encrypt_file infile n = Fault.
Proof.
  intros Htb Hpub.
  assert (Hrange : 6 <= total_bits < 2 ^ 63) by lia.
  destruct (ss_make_pub_modulus_bounds _ _ _ _ _ _ _ _ Hrange Hpub)
    as [Hlow Hhigh].
  assert (Hone : 1 <= 2 ^ (total_bits - 2))
    by (apply Z.lt_pred_le, Z.pow_pos_nonneg; lia).
  assert (Htop : 2 ^ (total_bits - 1) <= 2 ^ 14)
    by (apply Z.pow_le_mono_r; lia).
  change (2 ^ 14) with 16384 in Htop.
  assert (Hlog : Z.log2 n < 16) by (apply Z.log2_lt_pow2; lia).
  destruct (log2_sqrt_bounds n 0) as [Hs0 Hs8];
    [lia|change (2 ^ (2 * 0)) with 1;
         change (2 ^ (2 * (0 + 8))) with 65536; lia|].
  assert (Hsize : encrypt_block_size n = Ok 0).
  { rewrite encrypt_block_size_small by lia.
    rewrite Z.div_small by lia. reflexivity. }
  split; [assumption|].
  unfold ss_encrypt_file, ss_encrypt_file_run. rewrite Hsize; cbn [bind].
  destruct (length infile); reflexivity.
Qed.

Lemma ss_encrypt_file_short_key_witness :
  6 <= 10 <= 15 /\
  ss_make_pub 5 10 1 keygen10_world = Ok (3, 41, 369, keygen10_end) /\
  encrypt_block_size 369 = Ok 0 /\
  ss_encrypt_file ["H"%byte; "i"%byte] 369 = Fault.
Proof.
  split; [lia|]. split; [vm_compute; reflexivity|].
  apply (ss_encrypt_file_short_key 5 10 1 keygen10_world 3 41 369
           keygen10_end ["H"%byte; "i"%byte]).
  - lia.
  - vm_compute; reflexivity.
Defined.

(** X11.  Keys of 18 to 31 bits encrypt every input to nothing: the modulus
    lies between [2^16] and [2^32], the block size is 1, every read asks
    for 0 bytes, and [ss_encrypt_file] stops at once with an empty output
    and no error. *)
Theorem ss_encrypt_file_one_byte_block
  fuel total_bits iterations w p q n w' infile :
  18 <= total_bits <= 31 ->
  ss_make_pub fuel total_bits iterations w = Ok (p, q, n, w') ->
  encrypt_block_size n = Ok 1 /\ ss_encrypt_file infile n = Ok [].
Proof.
  intros Htb Hpub.
  assert (Hrange : 6 <= total_bits < 2 ^ 63) by lia.
  destruct (ss_make_pub_modulus_bounds _ _ _ _ _ _ _ _ Hrange Hpub)
    as [Hlow Hhigh].
  assert (Hbottom : 2 ^ 16 <= 2 ^ (total_bits - 2))
    by (apply Z.pow_le_mono_r; lia).
  assert (Htop : 2 ^ (total_bits - 1) <= 2 ^ 30)
    by (apply Z.pow_le_mono_r; lia).
  change (2 ^ 16) with 65536 in Hbottom.
  change (2 ^ 30) with 1073741824 in Htop.
  assert (Hlog : Z.log2 n < 32) by (apply Z.log2_lt_pow2; lia).
  destruct (log2_sqrt_bounds n 8) as [Hs8 Hs16];
    [lia|change (2 ^ (2 * 8)) with 65536;
         change (2 ^ (2 * (8 + 8))) with 4294967296; lia|].
  assert (Hsize : encrypt_block_size n = Ok 1).
  { rewrite encrypt_block_size_small by lia. f_equal.
    symmetry. apply (Z.div_unique _ _ 1 (Z.log2 (Z.sqrt n) - 8)); lia. }
  split; [assumption|].
  unfold ss_encrypt_file, ss_encrypt_file_run. rewrite Hsize; cbn [bind].
  destruct (length infile); reflexivity.
Qed.

Lemma ss_encrypt_file_one_byte_block_witness :
  18 <= 24 <= 31 /\
  ss_make_pub 5 24 1 keygen24_world = Ok (11, 65537, 7929977, keygen24_end) /\
  encrypt_block_size 7929977 = Ok 1 /\
  ss_encrypt_file ["H"%byte; "i"%byte] 7929977 = Ok [].
Proof.
  split; [lia|]. split; [vm_compute; reflexivity|].
  apply (ss_encrypt_file_one_byte_block 5 24 1 keygen24_world 11 65537
           7929977 keygen24_end ["H"%byte; "i"%byte]).
  - lia.
  - vm_compute; reflexivity.
Defined.

(** ** ss.c: what [ss_decrypt_file] does not check *)

Lemma be_bytes_length count op : length (be_bytes count op) = count.
Proof. induction count; cbn [be_bytes length]; congruence. Qed.

(** [mpz_export] gives more than [block_size] bytes for a value of
    [2^(8 * block_size)] or more. *)
Lemma mpz_export_length_above block_size m :
  0 <= block_size -> 2 ^ (8 * block_size) <= m ->
  block_size < Z.of_nat (length (mpz_export m)).
Proof.
  intros Hbs Hm.
  assert (Hpos : 0 < 2 ^ (8 * block_size)) by (apply Z.pow_pos_nonneg; lia).
  unfold mpz_export. rewrite be_bytes_length, Z.abs_eq by lia.
  destruct (Z.eqb_spec m 0); [lia|].
  assert (Hlog : 8 * block_size <= Z.log2 m)
    by (apply Z.log2_le_pow2; lia).
  assert (block_size <= Z.log2 m / 8)
    by (apply Z.div_le_lower_bound; lia).
  lia.
Qed.

(** The first pass of [ss_decrypt_file] on a token whose plaintext is not
    a block. *)
Lemma ss_decrypt_file_first_token fuel c rest d pq block_size m :
  decrypt_block_size pq = Ok block_size -> 0 <= block_size ->
  ss_decrypt c d pq = Ok m ->
  m = 0 \/ 2 ^ (8 * block_size) <= m ->
  ss_decrypt_file fuel (Hex c :: rest) d pq = Fault.
Proof.
  intros Hsize Hbs Hdec Hm. unfold ss_decrypt_file.
  rewrite Hsize; cbn [bind].
  assert (Hbody : ss_decrypt_file_body block_size d pq
                    (mkDec (Hex c :: rest) 0 []) = Fault).
  { unfold ss_decrypt_file_body.
    cbn [dec_infile dec_ciphertext dec_outfile gmp_fscanf_Zx].
    change (1 =? -1) with false; cbv iota.
    rewrite Hdec; cbn [bind].
    destruct Hm as [->|Hm].
    - change (mpz_export 0) with (@nil byte). cbn [length].
      change (Z.of_nat 0) with 0.
      destruct (Z.ltb_spec block_size 0); [reflexivity|reflexivity].
    - pose proof (mpz_export_length_above block_size m Hbs Hm).
      destruct (Z.ltb_spec block_size (Z.of_nat (length (mpz_export m))));
        [reflexivity|lia]. }
  destruct fuel; cbn [loop]; rewrite Hbody; reflexivity.
Qed.

(** X12.  [ss_decrypt_file] trusts its tokens.  Under every key pair from
    two different primes, the token 0 decrypts to 0, for which [mpz_export]
    writes nothing and the count given to [fwrite] wraps around; and the
    ciphertext of [pq - 1], a token below [n] like any other, decrypts to a
    value of more than [block_size] bytes, which [mpz_export] writes past
    the end of the block. *)
Theorem ss_decrypt_file_unchecked_tokens (p q d : Z) :
  Z.prime p -> Z.prime q -> p <> q ->
  (q - 1) mod p <> 0 -> (p - 1) mod q <> 0 ->
  ss_make_priv p q = Ok (d, p * q) ->
  (forall fuel rest,
     ss_decrypt_file fuel (Hex 0 :: rest) d (p * q) = Fault) /\
  exists c,
    ss_encrypt (p * q - 1) (p * p * q) = Ok c /\ 0 <= c < p * p * q /\
    forall fuel rest,
      ss_decrypt_file fuel (Hex c :: rest) d (p * q) = Fault.
Proof.
  intros Hp Hq Hne Hap Haq Hpriv.
  destruct (scheme_odd p q Hp Hq Hne Hap Haq) as [Hp3 Hq3].
  assert (Hpq : 0 < p * q) by nia.
  assert (Hn : 0 < p * p * q) by nia.
  assert (Hsize : exists block_size,
             decrypt_block_size (p * q) = Ok block_size /\
             0 <= block_size /\ 2 ^ (8 * block_size) <= p * q).
  { unfold decrypt_block_size.
    rewrite block_size_of_eq by lia. eexists; split; [reflexivity|].
    destruct (block_size_of_fits (p * q) _ Hpq
                (block_size_of_eq (p * q) ltac:(lia))) as (H0 & _ & Hfit).
    split; assumption. }
  destruct Hsize as (block_size & Hsize & Hbs & Hfit).
  split.
  - intros fuel rest.
    destruct (ss_decrypt_encrypt_mod p q d 0 Hp Hq Hne Hap Haq Hpriv)
      as (c & Hc & _ & Hdec).
    rewrite ss_encrypt_Ok, Zpow_mod_correct in Hc by lia.
    rewrite Z.pow_0_l, Z.mod_0_l in Hc by lia. injection Hc as <-.
    rewrite Z.mod_0_l in Hdec by lia.
    apply (ss_decrypt_file_first_token fuel 0 rest d (p * q) block_size 0);
      try assumption.
    now left.
  - destruct (ss_decrypt_encrypt_mod p q d (p * q - 1) Hp Hq Hne Hap Haq
                Hpriv) as (c & Hc & Hrange & Hdec).
    rewrite Z.mod_small in Hdec by lia.
    exists c. split; [assumption|]. split; [assumption|].
    intros fuel rest.
    apply (ss_decrypt_file_first_token fuel c rest d (p * q) block_size
             (p * q - 1)); try assumption.
    right.
    assert (2 ^ (8 * block_size) <> p * q); [|lia].
    intros Heq.
    destruct (Z.eq_dec block_size 0) as [->|Hnz];
      [change (2 ^ (8 * 0)) with 1 in Heq; nia|].
    assert (Htwo : (2 | p * q)).
    { assert (E : 2 ^ (8 * block_size) = 2 * 2 ^ (8 * block_size - 1))
        by (rewrite <- Z.pow_succ_r by lia; f_equal; lia).
      rewrite <- Heq, E. exists (2 ^ (8 * block_size - 1)). ring. }
    apply Z.divide_prime_mul in Htwo; [|exact Z.prime_2].
    destruct Htwo as [Htwo|Htwo];
      apply Z.divide_prime_prime in Htwo; try assumption; try exact Z.prime_2;
      lia.
Qed.

Lemma ss_decrypt_file_unchecked_tokens_witness :
  Z.prime 65537 /\ Z.prime 65539 /\
  ss_make_priv 65537 65539 = Ok (1431677611, 65537 * 65539) /\
  (forall fuel rest,
     ss_decrypt_file fuel (Hex 0 :: rest) 1431677611 (65537 * 65539)
     = Fault) /\
  exists c,
    ss_encrypt (65537 * 65539 - 1) (65537 * 65537 * 65539) = Ok c /\
    0 <= c < 65537 * 65537 * 65539 /\
    forall fuel rest,
      ss_decrypt_file fuel (Hex c :: rest) 1431677611 (65537 * 65539)
      = Fault.
Proof.
  assert (Hp : Z.prime 65537)
    by (apply prime_by_trial_sound; vm_compute; reflexivity).
  assert (Hq : Z.prime 65539)
    by (apply prime_by_trial_sound; vm_compute; reflexivity).
  assert (Hpriv : ss_make_priv 65537 65539 = Ok (1431677611, 65537 * 65539))
    by (vm_compute; reflexivity).
  split; [assumption|]. split; [assumption|]. split; [assumption|].
  apply (ss_decrypt_file_unchecked_tokens 65537 65539 1431677611 Hp Hq);
    [discriminate|vm_compute; discriminate|vm_compute; discriminate|
     assumption].
Defined.

(** ** ss.c: when [ss_decrypt_file] comes to an end *)




(** ** numtheory.c: [is_prime] on prime numbers *)

Section LoopMPost.

Context {S R : Type} (body : S -> M (S + R)).

(** [loopM_total] with what holds of the value the loop leaves with. *)
Lemma loopM_total_post (I : S -> Prop) (Q : R -> Prop) (mu : S -> nat) :
  (forall s w, I s ->
     match body s w with
     | Ok (inl s', _) => I s' /\ (mu s' < mu s)%nat
     | Ok (inr r, _) => Q r
     | _ => False
     end) ->
  forall fuel s w, I s -> (mu s <= fuel)%nat ->
  exists r w', loopM fuel body s w = Ok (r, w') /\ Q r.
Proof.
  intros Hbody fuel.
  induction fuel as [|fuel IH]; intros s w Hs Hmu; specialize (Hbody s w Hs);
    simpl; destruct (body s w) as [[[s'|r] w1]| |]; try contradiction; eauto.
  - destruct Hbody; lia.
  - destruct Hbody; apply IH; [assumption|lia].
Qed.

End LoopMPost.

(** The first loop of [is_prime] splits [number - 1] exactly. *)
Lemma is_prime_factor_exact number :
  3 <= number -> Z.odd number = true -> Z.log2 number < 2 ^ 64 - 1 ->
  exists s r,
    loop (bit_fuel (number - 1)) (is_prime_factor_body (number - 1)) 1
      = Ok (s, r) /\
    1 <= s < 2 ^ 64 /\ 0 < r /\ number - 1 = 2 ^ s * r.
Proof.
  intros Hn Hodd Hlog.
  destruct (is_prime_factor_spec number Hn Hodd Hlog)
    as (s & r & Hrun & Hs & Hr & _ & Hshift).
  exists s, r. split; [assumption|]. split; [assumption|].
  split; [assumption|].
  set (m := number - 1) in *.
  assert (Hmeven : (2 ^ 1 | m)).
  { change (2 ^ 1) with 2. unfold m.
    rewrite <- (Z.succ_pred number), Z.odd_succ in Hodd.
    apply Z.even_spec in Hodd. destruct Hodd as [k Hk].
    exists k. lia. }
  assert (Hinit : 0 <= 1 < 2 ^ 64 /\ (2 ^ 1 | m))
    by (split; [lia|assumption]).
  assert (Hdiv : (2 ^ s | m)).
  { refine (loop_partial (is_prime_factor_body m)
              (fun s => 0 <= s < 2 ^ 64 /\ (2 ^ s | m))
              (fun res => (2 ^ fst res | m))
              _ (bit_fuel m) 1 (s, r) Hinit Hrun).
    clear; intros s [Hs Hdiv]. unfold is_prime_factor_body.
    destruct (Z.odd (Z.shiftr m s)) eqn:Hr; [assumption|].
    unfold wrap64.
    pose proof (Z.mod_pos_bound (s + 1) (2 ^ 64) ltac:(reflexivity)) as Hw.
    split; [assumption|].
    destruct (Z_lt_le_dec (s + 1) (2 ^ 64)) as [Hlt|Hge].
    - rewrite Z.mod_small by lia.
      rewrite Z.shiftr_div_pow2 in Hr by lia.
      destruct Hdiv as [k Hk].
      assert (Hpow : 0 < 2 ^ s) by (apply Z.pow_pos_nonneg; lia).
      rewrite Hk, Z.div_mul in Hr by lia.
      rewrite <- Z.negb_even in Hr. apply negb_false_iff in Hr.
      apply Z.even_spec in Hr. destruct Hr as [k' ->].
      exists k'. rewrite Hk, Z.pow_add_r, Z.pow_1_r by lia. ring.
    - replace (s + 1) with (2 ^ 64) by lia.
      rewrite Z.mod_same by discriminate.
      exists m. change (2 ^ 0) with 1. ring. }
  cbn [fst] in Hdiv. destruct Hdiv as [k Hk].
  assert (Hpow : 0 < 2 ^ s) by (apply Z.pow_pos_nonneg; lia).
  rewrite Hshift, Z.shiftr_div_pow2, Hk, Z.div_mul by lia. ring.
Qed.

(** Modulo a prime, 1 has no square roots but 1 and -1. *)
Lemma prime_sqrt_one p x :
  Z.prime p -> 0 <= x < p -> (x * x) mod p = 1 -> x = 1 \/ x = p - 1.
Proof.
  intros Hp Hx Hsq. pose proof (Z.prime_ge_2 p Hp) as Hp2.
  assert (Hdiv : (p | (x - 1) * (x + 1))).
  { apply Z.mod_divide; [lia|].
    replace ((x - 1) * (x + 1)) with (x * x - 1) by ring.
    apply Z.cong_iff_0. rewrite Hsq, Z.mod_1_l by lia. reflexivity. }
  apply Z.divide_prime_mul in Hdiv; [|assumption].
  destruct Hdiv as [[k Hk]|[k Hk]]; [left|right].
  - assert (k = 0) by nia. subst k. lia.
  - assert (k = 1) by nia. subst k. lia.
Qed.

(** One round of the test passes for a prime, whatever the base it is
    given, as long as the prime does not divide the base. *)
Lemma is_prime_round_prime number s r base :
  Z.prime number -> 1 <= s < 2 ^ 64 -> 0 < r -> number - 1 = 2 ^ s * r ->
  base mod number <> 0 ->
  is_prime_round number (number - 1) s r 2 base = Ok true.
Proof.
  intros Hprime Hs Hr Hsplit Hbase.
  pose proof (Z.prime_ge_2 number Hprime) as Hn2.
  set (seq := fun k => (base ^ (2 ^ k * r)) mod number).
  assert (Hrange : forall k, 0 <= seq k < number)
    by (intros k; apply Z.mod_pos_bound; lia).
  assert (Hnext : forall k, 0 <= k -> (seq k * seq k) mod number = seq (k + 1)).
  { intros k Hk. unfold seq.
    rewrite <- Z.mul_mod, <- Z.pow_add_r by nia.
    do 2 f_equal. rewrite Z.pow_add_r, Z.pow_1_r by lia. ring. }
  assert (Hlast : seq s = 1).
  { unfold seq. rewrite <- Hsplit. apply Z.fermat_nz; assumption. }
  assert (Hsquare : forall w, pow_mod w 2 number = Ok ((w * w) mod number)).
  { intros w. rewrite pow_mod_spec by lia.
    change (2 =? 0) with false; cbv iota.
    rewrite Z.abs_eq, Z.pow_2_r by lia. reflexivity. }
  unfold is_prime_round.
  rewrite pow_mod_spec by lia.
  destruct (Z.eqb_spec r 0); [lia|]. rewrite Z.abs_eq by lia. cbn [bind].
  replace (base ^ r) with (base ^ (2 ^ 0 * r))
    by (change (2 ^ 0) with 1; f_equal; lia).
  fold (seq 0).
  destruct (Z.eqb_spec (seq 0) 1) as [|Hne1]; [reflexivity|].
  destruct (Z.eqb_spec (seq 0) (number - 1)) as [|Hne]; [reflexivity|].
  cbn [orb].
  assert (Hw : wrap64 (s - 1) = s - 1)
    by (unfold wrap64; apply Z.mod_small; lia).
  destruct (loop_total (is_prime_square_body number (number - 1) s 2)
              (fun st => 1 <= fst st <= s /\ snd st = seq (fst st - 1) /\
                         snd st <> 1)
              (fun after => after = Some (number - 1))
              (fun st => Z.to_nat (s - fst st)))
    with (fuel := Z.to_nat (wrap64 (s - 1))) (s := (1, seq 0))
    as (after & -> & ->).
  - intros [j w] (Hj & Hw_seq & Hw1); cbn [fst snd] in *.
    unfold is_prime_square_body. rewrite Hw.
    assert (Hsq : (w * w) mod number = seq j).
    { rewrite Hw_seq, Hnext by lia. f_equal; lia. }
    destruct (Z.leb_spec j (s - 1)) as [Hlt|Hend]; cbn [andb].
    + destruct (Z.eqb_spec w (number - 1)) as [->|Hwn]; cbn [negb];
        [reflexivity|].
      rewrite Hsquare, Hsq; cbn [bind].
      destruct (Z.eqb_spec (seq j) 1) as [Hone|Hnot].
      * exfalso. rewrite <- Hsq in Hone.
        destruct (prime_sqrt_one number w Hprime) as [|]; try assumption;
          [|contradiction|contradiction].
        rewrite Hw_seq; apply Hrange.
      * assert (Hj1 : wrap64 (j + 1) = j + 1)
          by (unfold wrap64; apply Z.mod_small; lia).
        rewrite Hj1; cbn [fst snd].
        replace (j + 1 - 1) with j by ring.
        split; [|lia]. split; [lia|]. split; [reflexivity|assumption].
    + assert (j = s) by lia; subst j.
      f_equal.
      destruct (prime_sqrt_one number w Hprime) as [|]; try assumption;
        [rewrite Hw_seq; apply Hrange| |contradiction].
      rewrite Hsq. assumption.
  - cbn [fst snd]. change (1 - 1) with 0.
    split; [lia|]. split; [reflexivity|assumption].
  - cbn [fst]. rewrite Hw. lia.
  - cbn [bind]. rewrite Z.eqb_refl. reflexivity.
Qed.

(** [is_prime] on an odd prime: every round passes. *)
Lemma is_prime_odd_prime number iterations w :
  Z.prime number -> 3 <= number -> Z.log2 number < 2 ^ 64 - 1 ->
  0 <= iterations < 2 ^ 64 ->
  exists w', is_prime number iterations w = Ok (true, w').
Proof.
  intros Hprime Hn3 Hlog Hit.
  assert (Hodd : Z.odd number = true).
  { destruct (Z.odd number) eqn:E; [reflexivity|exfalso].
    rewrite <- Z.negb_even in E. apply negb_false_iff in E.
    apply Z.even_spec in E. destruct E as [k Hk].
    assert (2 = number); [|lia].
    apply (Z.divide_prime_prime 2 number Z.prime_2 Hprime).
    exists k. lia. }
  destruct (is_prime_factor_exact number Hn3 Hodd Hlog)
    as (s & r & Hfactor & Hs & Hr & Hsplit).
  unfold is_prime.
  destruct (Z.eqb_spec number 1); [lia|].
  destruct (Z.eqb_spec number 2); [lia|].
  rewrite <- Z.negb_odd, Hodd; cbn [negb].
  rewrite Hfactor. unfold bindM at 1, lift at 1.
  destruct (loopM_total_post
              (is_prime_body number (number - 1) s r (number - 4) 2 iterations)
              (fun i => 0 <= i <= iterations)
              (fun verdict => verdict = true)
              (fun i => Z.to_nat (iterations - i)))
    with (fuel := Z.to_nat iterations) (s := 0) (w := w)
    as (verdict & w' & Hrun & ->); [|lia|lia|exists w'; exact Hrun].
  intros i w1 Hi. unfold is_prime_body.
  destruct (Z.ltb_spec i iterations); [|reflexivity].
  assert (Hmax : number - 4 <> 0).
  { intros E. replace number with 4 in Hodd by lia. discriminate. }
  unfold bindM at 1. rewrite mpz_urandomm_eq by assumption.
  set (draw := raw_draw w1 mod Z.abs (number - 4)).
  assert (Hdraw : 0 <= draw < Z.abs (number - 4))
    by (apply Z.mod_pos_bound; lia).
  assert (Hbase : (draw + 2) mod number <> 0).
  { rewrite Z.mod_small; lia. }
  unfold bindM, lift.
  rewrite (is_prime_round_prime number s r (draw + 2) Hprime Hs Hr Hsplit
             Hbase).
  assert (Hw : wrap64 (i + 1) = i + 1)
    by (unfold wrap64; apply Z.mod_small; lia).
  unfold ret. rewrite Hw. split; lia.
Qed.

(** X14.  [is_prime] never rejects a prime: on every prime number (of fewer
    than [2^64] bits), 2 among them, with every number of rounds and
    whatever the generator draws, it returns [true]. *)
Theorem is_prime_accepts_primes number iterations w :
  Z.prime number -> Z.log2 number < 2 ^ 64 - 1 ->
  0 <= iterations < 2 ^ 64 ->
  exists w', is_prime number iterations w = Ok (true, w').
Proof.
  intros Hprime Hlog Hit.
  pose proof (Z.prime_ge_2 number Hprime) as Hn2.
  destruct (Z.eq_dec number 2) as [->|Hne2]; [exists w; reflexivity|].
  apply is_prime_odd_prime; try assumption. lia.
Qed.

Lemma is_prime_accepts_primes_witness :
  Z.prime 65537 /\ Z.log2 65537 < 2 ^ 64 - 1 /\ 0 <= 3 < 2 ^ 64 /\
  exists w', is_prime 65537 3 keygen24_world = Ok (true, w').
Proof.
  assert (Hp : Z.prime 65537)
    by (apply prime_by_trial_sound; vm_compute; reflexivity).
  split; [assumption|]. split; [vm_compute; reflexivity|]. split; [lia|].
  apply (is_prime_accepts_primes 65537 3 keygen24_world Hp);
    [vm_compute; reflexivity|lia].
Defined.

(** X15.  [is_prime] gives a verdict on every number from 0 on (of fewer
    than [2^64] bits), whatever the generator draws: no loop of it runs on
    and no operation of it is undefined; and the verdict is [false] for 0,
    for 1 and for every even number but 2. *)
Theorem is_prime_verdict number iterations w :
  0 <= number -> Z.log2 number < 2 ^ 64 - 1 -> 0 <= iterations < 2 ^ 64 ->
  exists verdict w',
    is_prime number iterations w = Ok (verdict, w') /\
    (number = 1 \/ Z.even number = true /\ number <> 2 -> verdict = false).
Proof.
  intros Hn Hlog Hit.
  destruct (Z.eq_dec number 1) as [->|H1];
    [exists false, w; split; [reflexivity|trivial]|].
  destruct (Z.eq_dec number 2) as [->|H2].
  { exists true, w; split; [reflexivity|].
    intros [|[_ ?]]; [discriminate|contradiction]. }
  destruct (Z.even number) eqn:Heven.
  - exists false, w. split; [|trivial].
    apply is_prime_even; assumption.
  - assert (Hodd : Z.odd number = true)
      by (rewrite <- Z.negb_even, Heven; reflexivity).
    assert (Hn3 : 3 <= number).
    { destruct (Z.eq_dec number 0) as [->|]; [discriminate|lia]. }
    destruct (is_prime_returns number iterations w Hn3 Hodd Hlog Hit)
      as (verdict & w' & Hrun).
    exists verdict, w'. split; [assumption|].
    intros [|[? _]]; [contradiction|discriminate].
Qed.

Lemma is_prime_verdict_witness :
  0 <= 9 /\ Z.log2 9 < 2 ^ 64 - 1 /\ 0 <= 3 < 2 ^ 64 /\
  exists verdict w',
    is_prime 9 3 keygen24_world = Ok (verdict, w') /\
    (9 = 1 \/ Z.even 9 = true /\ 9 <> 2 -> verdict = false).
Proof.
  split; [lia|]. split; [vm_compute; reflexivity|]. split; [lia|].
  apply (is_prime_verdict 9 3 keygen24_world);
    [lia|vm_compute; reflexivity|lia].
Defined.

(** ** numtheory.c: [make_prime] comes to an end *)

Lemma mpz_urandomb_eq n w :
  mpz_urandomb n w = Ok (raw_draw w mod 2 ^ n, after_draw w).
Proof.
  unfold mpz_urandomb, raw_draw, after_draw.
  destruct (draw (state w)); reflexivity.
Qed.

(** X16.  [make_prime] returns as soon as the generator offers a prime:
    when the candidate made from the first draw is prime, [make_prime]
    returns it after two passes of its loop. *)
Theorem make_prime_first_prime fuel bits iterations w :
  1 <= bits < 2 ^ 64 -> 0 <= iterations < 2 ^ 64 ->
  let candidate := raw_draw w mod 2 ^ bits + 2 ^ (bits - 1) in
  Z.prime candidate -> Z.log2 candidate < 2 ^ 64 - 1 ->
  exists w', make_prime (S fuel) bits iterations w = Ok (candidate, w').
Proof.
  intros Hbits Hit candidate Hprime Hlog.
  unfold make_prime. rewrite Z.mul_1_l, wrap64_pred by assumption.
  cbn [loopM]. unfold make_prime_body at 1.
  unfold bindM at 1. rewrite is_prime_0. cbn [negb]. cbv iota.
  unfold bindM at 1. rewrite mpz_urandomb_eq. unfold ret at 1.
  fold candidate.
  assert (Haccepted : exists w',
             is_prime candidate iterations (after_draw w) = Ok (true, w')).
  { destruct (Z.eq_dec candidate 2) as [E|Hne].
    - rewrite E. exists (after_draw w). reflexivity.
    - pose proof (Z.prime_ge_2 candidate Hprime).
      apply is_prime_odd_prime; try assumption. lia. }
  destruct Haccepted as (w' & Hrun). exists w'.
  destruct fuel; cbn [loopM]; unfold make_prime_body at 1;
    unfold bindM at 1; rewrite Hrun; reflexivity.
Qed.

Lemma make_prime_first_prime_witness :
  1 <= 4 < 2 ^ 64 /\ 0 <= 3 < 2 ^ 64 /\
  let candidate := raw_draw make_prime_world mod 2 ^ 4 + 2 ^ (4 - 1) in
  Z.prime candidate /\ Z.log2 candidate < 2 ^ 64 - 1 /\
  exists w', make_prime 5 4 3 make_prime_world = Ok (candidate, w').
Proof.
  assert (Hp : Z.prime (raw_draw make_prime_world mod 2 ^ 4 + 2 ^ (4 - 1)))
    by (apply prime_by_trial_sound; vm_compute; reflexivity).
  split; [lia|]. split; [lia|]. cbv zeta.
  split; [assumption|]. split; [vm_compute; reflexivity|].
  apply (make_prime_first_prime 4 4 3 make_prime_world);
    [lia|lia|assumption|vm_compute; reflexivity].
Defined.

(** ** ss.c: the tokens of [ss_encrypt_file] *)

(** X17.  With a block size of at least 2 and a modulus other than 0,
    [ss_encrypt_file] writes one token for every [block_size - 1] bytes of
    the input and one more for what is left, each of them an integer from
    0 to [n - 1]. *)
Theorem ss_encrypt_file_tokens infile modulus_n block_size :
  encrypt_block_size modulus_n = Ok block_size ->
  2 <= block_size -> modulus_n <> 0 ->
  let nmemb := Z.to_nat (block_size - 1) in
  exists tokens,
    ss_encrypt_file infile modulus_n = Ok tokens /\
    length tokens = ((length infile + nmemb - 1) / nmemb)%nat /\
    Forall (fun c => 0 <= c < modulus_n) tokens.
Proof.
  intros Hsize Hbs Hn nmemb.
  assert (Hpos : 0 < modulus_n).
  { unfold encrypt_block_size, mpz_sqrt in Hsize.
    destruct (Z.ltb_spec modulus_n 0); [discriminate|lia]. }
  rewrite (ss_encrypt_file_eq infile modulus_n block_size Hsize) by lia.
  eexists; split; [reflexivity|]. split.
  - rewrite !length_map.
    apply reads_within_length; [unfold nmemb; lia|apply Nat.le_refl].
  - apply Forall_map, Forall_forall. intros block _.
    rewrite Zpow_mod_correct by lia.
    apply Z.mod_pos_bound; assumption.
Qed.

Lemma ss_encrypt_file_tokens_witness :
  encrypt_block_size 281496452005891 = Ok 3 /\ 2 <= 3 /\
  281496452005891 <> 0 /\
  let infile := ["a"; "b"; "c"]%byte in
  let nmemb := Z.to_nat (3 - 1) in
  exists tokens,
    ss_encrypt_file infile 281496452005891 = Ok tokens /\
    length tokens = ((length infile + nmemb - 1) / nmemb)%nat /\
    Forall (fun c => 0 <= c < 281496452005891) tokens.
Proof.
  split; [vm_compute; reflexivity|]. split; [lia|]. split; [discriminate|].
  apply (ss_encrypt_file_tokens ["a"; "b"; "c"]%byte 281496452005891 3);
    [vm_compute; reflexivity|lia|discriminate].
Defined.
